(** * duet: a shallow embedding of [duet/__init__.py]

    The development follows the layout of the Python module:

    - exceptions, futures and coroutines (the objects the module handles);
    - [awaitable] and [_awaitable_value];
    - [run], over a scheduler modelled from the specification
      ([duet.impl] is not among the sources);
    - [Limiter] and [Slot];
    - [new_scope] and [Scope], as a transition system over the await
      points of [new_scope];
    - [pmap_aiter] / [pmap_async], as a transition system over the await
      points of [generate], the workers and the consumer loop.

    Integers are [Z], sets are [gset], dictionaries are [gmap], deques and
    lists are [list]. *)

From stdpp Require Import gmap strings list fin_maps sorting.
From Stdlib Require Import ZArith Lia.

Local Open Scope Z_scope.

(** ** Exceptions and futures *)

(** A Python exception object, reduced to its class name and message. *)
Inductive exn : Type := Exn (cls : string) (msg : string).

Global Instance exn_eq_dec : EqDecision exn.
Proof. solve_decision. Defined.

Definition RuntimeError (msg : string) : exn := Exn "RuntimeError" msg.
Definition Exception (msg : string) : exn := Exn "Exception" msg.
Definition ValueError (msg : string) : exn := Exn "ValueError" msg.
Definition TypeError (msg : string) : exn := Exn "TypeError" msg.

(** Futures are identified by the order of their creation. *)
Definition fut := nat.

(** The futures created so far and the ones that have a result.  The
    module only ever calls [try_set_result(None)] on the futures it makes,
    so a future is either unset or set. *)
Record futures : Type := mkFutures {
  next_fut : fut;
  resolved : gset fut
}.

Definition no_futures : futures := mkFutures 0%nat ∅.

(** [AwaitableFuture()] *)
Definition new_future (fs : futures) : fut * futures :=
  (next_fut fs, mkFutures (S (next_fut fs)) (resolved fs)).

(** [f.try_set_result(None)]: sets the future, does nothing when it is
    already set. *)
Definition try_set_result (f : fut) (fs : futures) : futures :=
  mkFutures (next_fut fs) ({[f]} ∪ resolved fs).

Definition is_set (f : fut) (fs : futures) : bool :=
  bool_decide (f ∈ resolved fs).

(** ** Limiter and Slot *)

Module Limiter.

(** [class Limiter]: the four attributes set by [__init__]. *)
Record t : Type := mk {
  capacity : option Z;
  count : Z;
  waiters : list fut;
  available_waiters : list fut
}.

(** [Limiter.__init__] *)
Definition __init__ (capacity : option Z) : t := mk capacity 0 [] [].

(** [Limiter.is_available] *)
Definition is_available (self : t) : bool :=
  match capacity self with
  | None => true
  | Some c => bool_decide (count self < c)
  end.

(** Assignment to the attribute [capacity]. *)
Definition set_capacity (c : option Z) (self : t) : t :=
  mk c (count self) (waiters self) (available_waiters self).

(** The limiter together with the futures it creates and sets. *)
Definition world : Type := t * futures.

(** Where a call of [__aenter__] stands after it has run up to its
    await: past it ([Entered]) or suspended on the future it queued. *)
Inductive entering : Type :=
| Entered
| Suspended (f : fut).

(** [Limiter.__aenter__], from the call to the first suspension:
<<
    if not self.is_available():
        f = AwaitableFuture()
        self.waiters.append(f)
        await f
    self.count += 1
>> *)
Definition __aenter__ (w : world) : entering * world :=
  let '(self, fs) := w in
  if is_available self then
    (Entered,
     (mk (capacity self) (count self + 1) (waiters self) (available_waiters self), fs))
  else
    let '(f, fs') := new_future fs in
    (Suspended f,
     (mk (capacity self) (count self) (waiters self ++ [f]) (available_waiters self), fs')).

(** [Limiter.__aenter__], resumed after [await f]: [self.count += 1]. *)
Definition __aenter__resume (w : world) : world :=
  let '(self, fs) := w in
  (mk (capacity self) (count self + 1) (waiters self) (available_waiters self), fs).

(** [Limiter._release]:
<<
    self.count -= 1
    if self.waiters:
        f = self.waiters.popleft()
        f.try_set_result(None)
    if self.available_waiters:
        for f in self.available_waiters:
            f.try_set_result(None)
        self.available_waiters = []
>> *)
Definition _release (w : world) : world :=
  let '(self, fs) := w in
  let '(ws, fs1) :=
    match waiters self with
    | f :: rest => (rest, try_set_result f fs)
    | [] => ([], fs)
    end in
  let fs2 := foldl (fun acc f => try_set_result f acc) fs1 (available_waiters self) in
  (mk (capacity self) (count self - 1) ws [], fs2).

(** [Limiter.available], up to its await: the future it waits on. *)
Definition available (w : world) : fut * world :=
  let '(self, fs) := w in
  let '(f, fs') := new_future fs in
  if is_available self then (f, (self, try_set_result f fs'))
  else (f, (mk (capacity self) (count self) (waiters self)
               (available_waiters self ++ [f]), fs')).

End Limiter.

Module Slot.

(** [class Slot]: the release function it was given and the flag. *)
Record t : Type := mk {
  release_func : Limiter.world -> Limiter.world;
  called : bool
}.

(** [Slot.__init__] *)
Definition __init__ (release_func : Limiter.world -> Limiter.world) : t :=
  mk release_func false.

(** [Slot.release]:
<<
    if self.called:
        raise Exception("Already released.")
    self.called = True
    self.release_func()
>> *)
Definition release (self : t) (w : Limiter.world) : (exn + unit) * t * Limiter.world :=
  if called self then
    (inl (Exception "Already released."), self, w)
  else
    let self' := mk (release_func self) true in
    (inr tt, self', release_func self w).

End Slot.

(** [Limiter.acquire], past [await self.__aenter__()]:
    [return Slot(self._release)]. *)
Definition acquire_slot : Slot.t := Slot.__init__ Limiter._release.

(** ** Interleavings of acquire and release on one limiter

    A task that calls [acquire] either passes [__aenter__] at once or is
    suspended on the future it queued; the scheduler resumes it some time
    after that future has been set.  Between two suspension points a task
    runs alone, so an interleaving is a sequence of the events below. *)

Module LimiterTrace.

Inductive event : Type :=
| Acquire                      (* a task calls [limiter.acquire()] *)
| Resume (f : fut)             (* the task suspended on [f] is resumed *)
| Release                      (* a holder releases its slot *)
| SetCapacity (c : option Z).  (* [limiter.capacity = c] *)

(** The limiter and its futures, with the history needed to state the
    order of admission: acquire calls are numbered in arrival order. *)
Record state : Type := mk {
  lim : Limiter.world;
  arrivals : nat;                (* number of acquire calls so far *)
  suspended : gmap fut nat;      (* future -> the call suspended on it *)
  admitted : list nat;           (* calls in the order they got a slot *)
  enqueued : list (fut * nat);   (* futures in the order they were queued *)
  woken : list fut               (* queued futures in the order they were set *)
}.

Definition init (capacity : option Z) : state :=
  mk (Limiter.__init__ capacity, no_futures) 0%nat ∅ [] [] [].

Definition step (st : state) (e : event) : option state :=
  match e with
  | Acquire =>
      let i := arrivals st in
      match Limiter.__aenter__ (lim st) with
      | (Limiter.Entered, w') =>
          Some (mk w' (S i) (suspended st) (admitted st ++ [i]) (enqueued st) (woken st))
      | (Limiter.Suspended f, w') =>
          Some (mk w' (S i) (<[f := i]> (suspended st)) (admitted st)
                   (enqueued st ++ [(f, i)]) (woken st))
      end
  | Resume f =>
      match suspended st !! f with
      | Some i =>
          if is_set f (lim st).2 then
            Some (mk (Limiter.__aenter__resume (lim st)) (arrivals st)
                     (delete f (suspended st)) (admitted st ++ [i])
                     (enqueued st) (woken st))
          else None
      | None => None
      end
  | Release =>
      if bool_decide (0 < Limiter.count (lim st).1) then
        Some (mk (Limiter._release (lim st)) (arrivals st) (suspended st)
                 (admitted st) (enqueued st)
                 (woken st ++ take 1 (Limiter.waiters (lim st).1)))
      else None
  | SetCapacity c =>
      Some (mk (Limiter.set_capacity c (lim st).1, (lim st).2) (arrivals st)
               (suspended st) (admitted st) (enqueued st) (woken st))
  end.

Fixpoint exec (st : state) (evs : list event) : option state :=
  match evs with
  | [] => Some st
  | e :: evs' =>
      match step st e with
      | Some st' => exec st' evs'
      | None => None
      end
  end.

(** Admission in strict arrival order: the calls that hold or held a
    slot are the first ones that arrived, in that order. *)
Definition strict_arrival_order (st : state) : Prop :=
  admitted st = seq 0 (length (admitted st)).


End LimiterTrace.

(** The release rule with a capacity check: the head waiter is set by a
    release only if, after the decrement, the count is below the capacity. *)
Definition release_respects_capacity (w : Limiter.world) : Prop :=
  ∀ (c : Z) (f : fut),
    Limiter.capacity w.1 = Some c →
    head (Limiter.waiters w.1) = Some f →
    f ∉ resolved w.2 →
    f ∈ resolved (Limiter._release w).2 →
    Limiter.count (Limiter._release w).1 < c.

(** ** Coroutines and awaitable objects *)

(** The result of a future or of a finished task. *)
Inductive outcome (V : Type) : Type :=
| Value (v : V)
| Error (e : exn).
Global Arguments Value {V} v.
Global Arguments Error {V} e.

Global Instance outcome_eq_dec {V : Type} `{EqDecision V} : EqDecision (outcome V).
Proof. solve_decision. Defined.

(** A coroutine, seen from the scheduler that drives it: it has returned,
    it has raised, or it is suspended on a future and goes on with the
    result of that future.  [D] is the type of the values that futures
    carry, [R] the type of what the coroutine returns. *)
Inductive coro (D R : Type) : Type :=
| Return (v : R)
| Raise (e : exn)
| Await (f : fut) (k : outcome D → coro D R).
Global Arguments Return {D R} v.
Global Arguments Raise {D R} e.
Global Arguments Await {D R} f k.

(** The Python objects that [awaitable] tells apart. *)
#[local] Unset Elimination Schemes.
Inductive pyobj (D : Type) : Type :=
| Plain (d : D)                        (* neither awaitable nor a future *)
| FutureObj (f : fut)                  (* a [concurrent.futures.Future] *)
| AwaitableFutureObj (f : fut)         (* a [duet.AwaitableFuture] *)
| CoroutineObj (c : coro D (pyobj D)). (* a coroutine object *)
#[local] Set Elimination Schemes.
Global Arguments Plain {D} d.
Global Arguments FutureObj {D} f.
Global Arguments AwaitableFutureObj {D} f.
Global Arguments CoroutineObj {D} c.

Section Awaitable.

Context {D : Type}.

(** [AwaitableFuture.isfuture] and [AwaitableFuture.wrap] belong to
    [duet.futuretools], which is not among the sources. *)
Variable isfuture : pyobj D → bool.
Variable wrap : pyobj D → pyobj D.

(** [inspect.isawaitable]: coroutine objects and objects with an
    [__await__] method. *)
Definition isawaitable (value : pyobj D) : bool :=
  match value with
  | CoroutineObj _ | AwaitableFutureObj _ => true
  | Plain _ | FutureObj _ => false
  end.

(** [async def _awaitable_value(value): return value]: the call makes a
    coroutine object that returns [value] without awaiting. *)
Definition _awaitable_value (value : pyobj D) : pyobj D :=
  CoroutineObj (Return value).

(** [awaitable]:
<<
    if inspect.isawaitable(value):
        return value
    if AwaitableFuture.isfuture(value):
        return AwaitableFuture.wrap(value)
    return _awaitable_value(value)
>> *)
Definition awaitable (value : pyobj D) : pyobj D :=
  if isawaitable value then value
  else if isfuture value then wrap value
  else _awaitable_value value.

(** The expression [await o] inside a coroutine: a coroutine object runs
    in place, an awaitable future suspends the caller until it has a
    result, anything else is a [TypeError]. *)
Definition await (o : pyobj D) : coro D (pyobj D) :=
  match o with
  | CoroutineObj c => c
  | AwaitableFutureObj f =>
      Await f (fun r => match r with
                        | Value d => Return (Plain d)
                        | Error e => Raise e
                        end)
  | Plain _ | FutureObj _ =>
      Raise (TypeError "object can't be used in 'await' expression")
  end.

End Awaitable.

(** ** The scheduler behind [run] *)

Module Impl.

Section Scheduler.

Context {D R : Type}.

(** Modelled from the spec: [duet.impl.Task] is not among the sources.
    A task holds a resumable computation, a done flag and a result
    slot (section 3, Task). *)
Record Task : Type := mkTask {
  coroutine : coro D R;
  done : bool;
  result : option (outcome R)
}.

(** Modelled from the spec: the futures of [duet.futuretools], which is
    not among the sources, as seen by the scheduler: a future is unset
    or has a terminal outcome (section 3, Future). *)
Definition store : Type := gmap fut (outcome D).

(** Modelled from the spec: resuming a computation of [duet.impl] until
    it returns, raises or awaits a future that is not terminal;
    awaiting a terminal future returns its value or raises its error
    at once (section 4.1, await). *)
Fixpoint resume (futs : store) (c : coro D R) : coro D R :=
  match c with
  | Await f k =>
      match futs !! f with
      | Some o => resume futs (k o)
      | None => c
      end
  | Return _ | Raise _ => c
  end.

(** Modelled from the spec: [Task.advance] of [duet.impl]: resume the
    computation; when the step returns, store the result and mark the
    task done; when it yields a future, the task waits for it
    (section 4.2). *)
Definition advance (futs : store) (t : Task) : Task :=
  if done t then t
  else
    match resume futs (coroutine t) with
    | Return v => mkTask (Return v) true (Some (Value v))
    | Raise e => mkTask (Raise e) true (Some (Error e))
    | Await f k => mkTask (Await f k) false None
    end.

(** Modelled from the spec: [duet.impl.Scheduler]: the tasks in the
    order they were spawned and the futures they wait on (section 3,
    Scheduler). *)
Record Scheduler : Type := mkScheduler {
  tasks : list Task;
  futs : store
}.

Definition new_scheduler : Scheduler := mkScheduler [] ∅.

(** Modelled from the spec: [Scheduler.spawn]: add a new task, which
    starts ready (section 4.3). *)
Definition spawn (c : coro D R) (s : Scheduler) : nat * Scheduler :=
  (length (tasks s), mkScheduler (tasks s ++ [mkTask c false None]) (futs s)).

(** Modelled from the spec: [Scheduler.active_tasks]: the tasks not yet
    done (section 4.3). *)
Definition active_tasks (s : Scheduler) : list Task :=
  filter (fun t => done t = false) (tasks s).

(** Modelled from the spec: [Scheduler.tick]: every ready task is
    advanced once, in order; a task whose future is not terminal is
    left waiting (section 4.3). *)
Definition tick (s : Scheduler) : Scheduler :=
  mkScheduler (advance (futs s) <$> tasks s) (futs s).

(** Modelled from the spec: leaving the [with Scheduler()] block: tick
    until no task is active (section 4.7).  Between two ticks the
    scheduler waits for a future to be completed from outside; [world]
    lists those completions in order.  [None] when a task still waits
    and nothing more will be completed: the call blocks. *)
Fixpoint __exit__ (world : list (fut * outcome D)) (s : Scheduler) : option Scheduler :=
  let s' := tick s in
  match active_tasks s' with
  | [] => Some s'
  | _ :: _ =>
      match world with
      | [] => None
      | (f, o) :: world' =>
          __exit__ world' (mkScheduler (tasks s') (<[f := o]> (futs s')))
      end
  end.

End Scheduler.

End Impl.

(** [run]:
<<
      with impl.Scheduler() as scheduler:
          task = scheduler.spawn(func( *args, **kwds))
      return task.result
>>
    [Some (Value v)] when the call returns [v], [Some (Error e)] when it
    raises [e], [None] when it blocks for ever. *)
Definition run {D R A : Type} (func : A → coro D R) (args : A)
    (world : list (fut * outcome D)) : option (outcome R) :=
  let scheduler := Impl.new_scheduler in
  let '(task, scheduler) := Impl.spawn (func args) scheduler in
  match Impl.__exit__ world scheduler with
  | Some scheduler' =>
      match Impl.tasks scheduler' !! task with
      | Some t => Impl.result t
      | None => None
      end
  | None => None
  end.

(** What a coroutine body without any await computes when it is run as
    plain synchronous code; [None] for a body that awaits. *)
Definition sync_result {D R : Type} (c : coro D R) : option (outcome R) :=
  match c with
  | Return v => Some (Value v)
  | Raise e => Some (Error e)
  | Await _ _ => None
  end.

(** ** new_scope and Scope

    [new_scope] is an async generator with three suspension points: the
    [yield] (the block of the [async with] runs), the [await] inside the
    first [finish_tasks()] and the [await] inside the second one.  The
    transition system below has one state per suspension point and one
    event per thing that can happen between two of them.

    What the block and the spawned tasks compute is left open: a spawned
    task returns or raises at any time, whether it was interrupted or
    not, and the block returns or raises unless an interrupt is waiting
    for it at its await, which it lets through to [new_scope].  The
    scope is the one of the root task of [duet.run]: this version of
    [new_scope] takes no timeout, [Scope] has no [cancel], so the main
    task is interrupted by the tasks spawned in its scope only.  Tasks of
    other scopes are left out, since [new_scope] reads
    [scheduler.active_tasks] only through the intersection with its own
    set. *)

Module Scope.

(** Modelled from the spec: [duet.impl.Interrupt], the exception thrown
    into a task at its await; it carries the task that posted it and the
    error (section 4.2, interrupt contract). *)
Record interrupt : Type := Interrupt {
  source : nat;
  error : exn
}.

Global Instance interrupt_eq_dec : EqDecision interrupt.
Proof. solve_decision. Defined.

(** What [except (impl.Interrupt, Exception) as exc] can bind. *)
Inductive caught : Type :=
| CaughtInterrupt (i : interrupt)
| CaughtException (e : exn).

(** The exception that leaves [new_scope], with the two attributes that
    decide what a traceback shows. *)
Record raised : Type := mkRaised {
  exc_value : exn;
  __context__ : option interrupt;
  __suppress_context__ : bool
}.


Inductive phase : Type :=
| Body                                      (* at [yield Scope(...)] *)
| Finishing (waiting_on : gset nat)         (* first [finish_tasks()], in [any_ready] *)
| Cleanup (exc : caught) (waiting_on : gset nat)
                                            (* second [finish_tasks()], in [any_ready] *)
| Exited                                    (* the block was left normally *)
| Reraised (r : raised).                    (* [raise exc] *)

(** Errors in the order they happened. *)
Inductive failure : Type :=
| ChildFailed (t : nat) (e : exn)
| BodyRaised (e : exn).

Record state : Type := mk {
  at_phase : phase;
  main_task : nat;                 (* [main_task = impl.current_task()] *)
  interruptible : bool;            (* [main_task.interruptible] *)
  pending : option interrupt;      (* the interrupt queued on the main task *)
  tasks : gset nat;                (* [tasks: Set[impl.Task] = set()] *)
  active_tasks : gset nat;         (* [scheduler.active_tasks] *)
  next_task : nat;                 (* the next task the scheduler makes *)
  posted : list (nat * interrupt); (* the calls [task.interrupt(...)] made by [new_scope] *)
  spawned : gset nat;              (* every task made by [Scope.spawn] *)
  failures : list failure
}.

(** A scope opened by task [0] of a scheduler that has no other task. *)
Definition init : state :=
  mk Body 0%nat true None ∅ {[0%nat]} 1%nat [] ∅ [].

(** [Scope.spawn]:
<<
    task = self._scheduler.spawn(self._run(func, *args, **kwds), main_task=self._main_task)
    self._tasks.add(task)
>> *)
Definition spawn (st : state) : state :=
  let task := next_task st in
  mk (at_phase st) (main_task st) (interruptible st) (pending st)
     ({[task]} ∪ tasks st) ({[task]} ∪ active_tasks st) (S task)
     (posted st) ({[task]} ∪ spawned st) (failures st).

(** Modelled from the spec: [Task.interrupt] of [duet.impl], called on the
    main task: the interrupt is recorded; one that arrives while another
    is pending is dropped (section 3, Task). *)
Definition interrupt_main (i : interrupt) (pending : option interrupt) : option interrupt :=
  match pending with
  | Some p => Some p
  | None => Some i
  end.

(** The end of [Scope._run] for task [task], which ran [func] to the
    result [r]:
<<
    finally:
        self._tasks.discard(task)
>>
    after which the task is done; a task that raised posts its error to
    the main task of its scope (section 3, Task lifecycle). *)
Definition _run_finally (task : nat) (r : option exn) (st : state) : state :=
  mk (at_phase st) (main_task st) (interruptible st)
     (match r with
      | Some e => interrupt_main (Interrupt task e) (pending st)
      | None => pending st
      end)
     (tasks st ∖ {[task]}) (active_tasks st ∖ {[task]}) (next_task st)
     (posted st) (spawned st)
     (match r with
      | Some e => failures st ++ [ChildFailed task e]
      | None => failures st
      end).

(** Modelled from the spec: a task of [duet.impl] that is interrupted
    before its first advance ends with the error of the interrupt and
    runs nothing of [Scope._run]: it is done, it posts its error to the
    main task of its scope, and it stays in [tasks] until the next turn
    of [finish_tasks] (section 4.2, interrupt contract). *)
Definition aborted (task : nat) (e : exn) (st : state) : state :=
  mk (at_phase st) (main_task st) (interruptible st)
     (interrupt_main (Interrupt task e) (pending st))
     (tasks st) (active_tasks st ∖ {[task]}) (next_task st)
     (posted st) (spawned st) (failures st ++ [ChildFailed task e]).

(** Modelled from the spec: [impl.any_ready(tasks)], awaited by
    [finish_tasks]: the await ends once a task of the set is done, and at
    once for an empty set (section 4.4, step 2). *)
Definition any_ready (waiting_on active : gset nat) : bool :=
  bool_decide (waiting_on = ∅) || bool_decide (¬ waiting_on ⊆ active).

(** One turn of the loop of [finish_tasks], past its await:
<<
    tasks.intersection_update(scheduler.active_tasks)
    if not tasks:
        break
>>
    The result tells whether the loop is left. *)
Definition finish_tasks (tasks active : gset nat) : gset nat * bool :=
  let tasks' := tasks ∩ active in
  (tasks', bool_decide (tasks' = ∅)).

(** The loop of the except clause:
<<
    for task in tasks:
        if not task.done:
            task.interrupt(main_task, RuntimeError("scope exited"))
>> *)
Definition interrupt_remaining (main_task : nat) (tasks active : gset nat)
    : list (nat * interrupt) :=
  (fun task => (task, Interrupt main_task (RuntimeError "scope exited")))
    <$> filter (fun task => task ∈ active) (elements tasks).

(** Entering the except clause with [exc], up to the await of the second
    [finish_tasks()]:
<<
    except (impl.Interrupt, Exception) as exc:
        for task in tasks: ...
        main_task.interruptible = False
        await finish_tasks()
>> *)
Definition except_clause (exc : caught) (pending' : option interrupt) (st : state) : state :=
  mk (Cleanup exc (tasks st)) (main_task st) false pending'
     (tasks st) (active_tasks st) (next_task st)
     (posted st ++ interrupt_remaining (main_task st) (tasks st) (active_tasks st))
     (spawned st) (failures st).

(** The end of the except clause:
<<
    if isinstance(exc, impl.Interrupt):
        exc = exc.error
        exc.__suppress_context__ = True
    raise exc
>>
    An exception raised while another one is handled gets that one as its
    context; re-raising the handled exception itself leaves it as it is. *)
Definition reraise (exc : caught) : raised :=
  match exc with
  | CaughtInterrupt i => mkRaised (error i) (Some i) true
  | CaughtException e => mkRaised e None false
  end.

(** The interrupt that the next advance of the main task delivers. *)
Definition deliverable (st : state) : option interrupt :=
  if interruptible st then pending st else None.

Inductive event : Type :=
| Spawn                            (* [scope.spawn(...)] *)
| ChildReturn (task : nat)         (* a spawned task returns *)
| ChildRaise (task : nat) (e : exn) (* a spawned task raises *)
| ChildAbort (task : nat)          (* a spawned task is interrupted before it starts *)
| BodyReturn                       (* the block ends *)
| BodyRaise (e : exn)              (* the block raises an exception of its own *)
| Advance.                         (* the scheduler advances the main task *)

Definition is_child (task : nat) (st : state) : bool :=
  bool_decide (task ∈ spawned st) && bool_decide (task ∈ active_tasks st).

Definition running (st : state) : bool :=
  match at_phase st with
  | Exited | Reraised _ => false
  | _ => true
  end.

Definition set_phase (p : phase) (tasks' : gset nat) (st : state) : state :=
  mk p (main_task st) (interruptible st) (pending st) tasks' (active_tasks st)
     (next_task st) (posted st) (spawned st) (failures st).

Definition step (st : state) (ev : event) : option state :=
  match ev with
  | Spawn => if running st then Some (spawn st) else None
  | ChildReturn task =>
      if running st && is_child task st then Some (_run_finally task None st) else None
  | ChildRaise task e =>
      if running st && is_child task st then Some (_run_finally task (Some e) st) else None
  | ChildAbort task =>
      if running st && is_child task st && bool_decide (task ∈ (posted st).*1)
      then Some (aborted task (RuntimeError "scope exited") st)
      else None
  | BodyReturn =>
      match at_phase st, deliverable st with
      | Body, None => Some (set_phase (Finishing (tasks st)) (tasks st) st)
      | _, _ => None
      end
  | BodyRaise e =>
      match at_phase st, deliverable st with
      | Body, None =>
          Some (except_clause (CaughtException e) (pending st)
                  (mk (at_phase st) (main_task st) (interruptible st) (pending st)
                      (tasks st) (active_tasks st) (next_task st) (posted st)
                      (spawned st) (failures st ++ [BodyRaised e])))
      | _, _ => None
      end
  | Advance =>
      match at_phase st, deliverable st with
      | Body, Some i => Some (except_clause (CaughtInterrupt i) None st)
      | Body, None => None
      | Finishing _, Some i => Some (except_clause (CaughtInterrupt i) None st)
      | Finishing waiting_on, None =>
          if any_ready waiting_on (active_tasks st) then
            let '(tasks', leave) := finish_tasks (tasks st) (active_tasks st) in
            Some (set_phase (if leave then Exited else Finishing tasks') tasks' st)
          else None
      | Cleanup exc waiting_on, _ =>
          if any_ready waiting_on (active_tasks st) then
            let '(tasks', leave) := finish_tasks (tasks st) (active_tasks st) in
            Some (set_phase (if leave then Reraised (reraise exc) else Cleanup exc tasks')
                    tasks' st)
          else None
      | Exited, _ | Reraised _, _ => None
      end
  end.

Fixpoint exec (st : state) (evs : list event) : option state :=
  match evs with
  | [] => Some st
  | ev :: evs' =>
      match step st ev with
      | Some st' => exec st' evs'
      | None => None
      end
  end.

(** The error that set the except clause off. *)
Definition triggering_error (exc : caught) : exn :=
  match exc with
  | CaughtInterrupt i => error i
  | CaughtException e => e
  end.

(** Every spawned task is done. *)
Definition all_children_done (st : state) : Prop :=
  ∀ task, task ∈ spawned st → task ∉ active_tasks st.

(** What holds between the task sets at every point of the scope. *)
Record inv (st : state) : Prop := mkInv {
  inv_tasks_spawned : tasks st ⊆ spawned st;
  inv_children : spawned st ∩ active_tasks st ⊆ tasks st;
  inv_left : running st = false → tasks st = ∅;
  inv_main : main_task st = 0%nat;
  inv_posted_none :
    match at_phase st with
    | Body | Finishing _ | Exited => posted st = []
    | _ => True
    end;
  inv_posted : ∀ task i, (task, i) ∈ posted st →
    i = Interrupt (main_task st) (RuntimeError "scope exited") ∧ task ∈ spawned st;
  inv_waiting_on :
    match at_phase st with
    | Finishing s | Cleanup _ s => s ⊆ spawned st
    | _ => True
    end
}.

(** The first error decides how the scope ends: until an error happens
    the main task has no interrupt queued; once a child has failed first,
    its interrupt is queued, then caught, then its error is re-raised;
    once the block has raised first, that exception is caught and
    re-raised. *)
Definition first_failure_inv (st : state) : Prop :=
  match failures st with
  | [] =>
      pending st = None ∧ interruptible st = true ∧ posted st = [] ∧
      match at_phase st with
      | Body | Finishing _ | Exited => True
      | _ => False
      end
  | ChildFailed t e :: _ =>
      match at_phase st with
      | Body | Finishing _ => pending st = Some (Interrupt t e) ∧ interruptible st = true
      | Cleanup exc _ => exc = CaughtInterrupt (Interrupt t e)
      | Reraised r => r = reraise (CaughtInterrupt (Interrupt t e))
      | Exited => False
      end
  | BodyRaised e :: _ =>
      match at_phase st with
      | Cleanup exc _ => exc = CaughtException e
      | Reraised r => r = reraise (CaughtException e)
      | _ => False
      end
  end.

End Scope.


(** The rule that the interrupts posted by the except clause carry the
    error that set it off. *)
Definition interrupts_carry_trigger (st : Scope.state) : Prop :=
  ∀ exc waiting_on task i,
    Scope.at_phase st = Scope.Cleanup exc waiting_on →
    (task, i) ∈ Scope.posted st →
    Scope.error i = Scope.triggering_error exc.

(** ** pmap_aiter and pmap_async

    A call [pmap(func, xs, limit)] runs three kinds of tasks under one
    scheduler: the main task (the body of [pmap_async], which consumes
    [pmap_aiter]), the task of [generate], and one task per item running
    [task(i, arg, slot)].  The transition system below has one event per
    advance of one of them between two suspension points. *)

Module Pmap.

(** Modelled from the spec: [AsyncCollector] belongs to
    [duet.aitertools], which is not among the sources: a queue of the
    values added, in order, drained by the consumer, and marked done or
    errored by the producer (section 4.6). *)
Record Collector (U : Type) : Type := mkCollector {
  items : list (nat * U);
  finished : option (option exn)
}.
Global Arguments mkCollector {U} items finished.
Global Arguments items {U} c.
Global Arguments finished {U} c.

(** What [collector.__anext__()] gives once it returns. *)
Inductive next (U : Type) : Type :=
| Item (i : nat) (value : U)
| StopAsyncIteration
| Failed (e : exn).
Global Arguments Item {U} i value.
Global Arguments StopAsyncIteration {U}.
Global Arguments Failed {U} e.

Section Collector.

Context {U : Type}.

(** [collector.add((i, value))] *)
Definition add (i : nat) (value : U) (c : Collector U) : Collector U :=
  mkCollector (items c ++ [(i, value)]) (finished c).

(** [collector.done()] *)
Definition collector_done (c : Collector U) : Collector U :=
  mkCollector (items c) (Some None).

(** [collector.error(e)] *)
Definition collector_error (e : exn) (c : Collector U) : Collector U :=
  mkCollector (items c) (Some (Some e)).

(** [collector.__anext__()]; [None] while the consumer stays suspended:
    nothing is queued and the producer has not finished. *)
Definition __anext__ (c : Collector U) : option (next U * Collector U) :=
  match items c with
  | (i, value) :: rest => Some (Item i value, mkCollector rest (finished c))
  | [] =>
      match finished c with
      | None => None
      | Some None => Some (StopAsyncIteration, c)
      | Some (Some e) => Some (Failed e, c)
      end
  end.

(** The inner loop of the consumer:
<<
    while next_idx in buffer:
        yield buffer.pop(next_idx)
        next_idx += 1
>>
    The values yielded are appended to [out], the list that the
    comprehension in [pmap_async] builds.  Each turn pops one entry, so
    the size of the buffer bounds the number of turns. *)
Fixpoint flush (turns : nat) (buffer : gmap nat U) (next_idx : nat) (out : list U)
    : gmap nat U * nat * list U :=
  match turns with
  | O => (buffer, next_idx, out)
  | S turns' =>
      match buffer !! next_idx with
      | Some value => flush turns' (delete next_idx buffer) (S next_idx) (out ++ [value])
      | None => (buffer, next_idx, out)
      end
  end.

(** The last loop of the consumer:
<<
    while buffer:
        yield buffer.pop(next_idx)
        next_idx += 1
>>
    [buffer.pop(next_idx)] raises [KeyError] when the index is missing. *)
Fixpoint drain (turns : nat) (buffer : gmap nat U) (next_idx : nat) (out : list U)
    : exn + list U :=
  if decide (buffer = ∅) then inr out
  else
    match turns with
    | O => inr out
    | S turns' =>
        match buffer !! next_idx with
        | Some value => drain turns' (delete next_idx buffer) (S next_idx) (out ++ [value])
        | None => inl (Exn "KeyError" "")
        end
    end.

End Collector.

(** Where the task of [generate] stands. *)
Inductive gen_phase : Type :=
| GLoop (i : nat)                    (* at the head of the [async for], item [i] next *)
| GAcquire (i : nat) (f : fut)       (* in [await limiter.acquire()], suspended on [f] *)
| GFinishing (waiting_on : gset nat) (* first [finish_tasks()] of its scope *)
| GCleanup (exc : Scope.caught) (waiting_on : gset nat)
                                     (* second [finish_tasks()] of its scope *)
| GDone.                             (* returned *)

(** Where the main task stands. *)
Inductive main_phase (U : Type) : Type :=
| MConsume                           (* in [async for i, value in collector] *)
| MFinishing (waiting_on : gset nat) (* first [finish_tasks()] of the outer scope *)
| MCleanup (exc : Scope.caught) (waiting_on : gset nat)
                                     (* second [finish_tasks()] of the outer scope *)
| MReturned (result : list U)        (* [pmap] returned the list *)
| MRaised (r : Scope.raised).        (* [pmap] raised *)
Global Arguments MConsume {U}.
Global Arguments MFinishing {U} waiting_on.
Global Arguments MCleanup {U} exc waiting_on.
Global Arguments MReturned {U} result.
Global Arguments MRaised {U} r.

(** Tasks in the order the scheduler makes them: the main task, the task
    of [generate], then one task per item. *)
Definition main_id : nat := 0.
Definition gen_id : nat := 1.
Definition worker (i : nat) : nat := 2 + i.
Global Arguments worker : simpl never.

Record state (U : Type) : Type := mk {
  main : main_phase U;
  gen : gen_phase;
  gen_pending : option Scope.interrupt; (* the interrupt queued on the task of [generate] *)
  gen_interruptible : bool;
  lim : Limiter.world;                  (* [limiter = Limiter(limit)] *)
  collector : Collector U;
  buffer : gmap nat U;
  next_idx : nat;
  out : list U;                         (* the values yielded so far *)
  outer_tasks : gset nat;               (* [tasks] of the scope of [pmap_async] *)
  gen_tasks : gset nat;                 (* [tasks] of [gen_scope] *)
  active_tasks : gset nat;              (* [scheduler.active_tasks] *)
  spawned : nat;                        (* number of worker tasks made *)
  posted : list (nat * Scope.interrupt) (* interrupts posted to worker tasks *)
}.
Global Arguments mk {U}.
Global Arguments main {U} s.
Global Arguments gen {U} s.
Global Arguments gen_pending {U} s.
Global Arguments gen_interruptible {U} s.
Global Arguments lim {U} s.
Global Arguments collector {U} s.
Global Arguments buffer {U} s.
Global Arguments next_idx {U} s.
Global Arguments out {U} s.
Global Arguments outer_tasks {U} s.
Global Arguments gen_tasks {U} s.
Global Arguments active_tasks {U} s.
Global Arguments spawned {U} s.
Global Arguments posted {U} s.

Inductive event (U : Type) : Type :=
| Gen                               (* the task of [generate] is advanced *)
| Finish (i : nat) (o : outcome U)  (* [func] ends in the task of item [i] *)
| Abort (i : nat)                   (* the task of item [i] is interrupted before it starts *)
| Main.                             (* the main task is advanced *)
Global Arguments Gen {U}.
Global Arguments Finish {U} i o.
Global Arguments Abort {U} i.
Global Arguments Main {U}.

Section Machine.

Context {X U : Type} `{!EqDecision U}.
Variable func : X → outcome U.
Variable xs : list X.
Variable limit : option Z.

(** [pmap_async] has entered its scope and [pmap_aiter] has run up to
    its first await: the collector is made, [generate] is spawned in the
    outer scope, the consumer waits for the collector.  [generate] has
    made its limiter and stands at the head of its loop. *)
Definition init : state U :=
  mk MConsume (GLoop 0) None true (Limiter.__init__ limit, no_futures)
     (mkCollector [] None) ∅ 0%nat [] {[gen_id]} ∅ {[main_id; gen_id]} 0%nat [].

(** [gen_scope.spawn(task, i, arg, slot)] *)
Definition spawn_worker (i : nat) (w : Limiter.world) (st : state U) : state U :=
  mk (main st) (GLoop (S i)) (gen_pending st) (gen_interruptible st) w
     (collector st) (buffer st) (next_idx st) (out st) (outer_tasks st)
     ({[worker i]} ∪ gen_tasks st) ({[worker i]} ∪ active_tasks st)
     (S (spawned st)) (posted st).

Definition set_gen (g : gen_phase) (tasks' : gset nat) (st : state U) : state U :=
  mk (main st) g (gen_pending st) (gen_interruptible st) (lim st)
     (collector st) (buffer st) (next_idx st) (out st) (outer_tasks st)
     tasks' (active_tasks st) (spawned st) (posted st).

(** The except clause of [gen_scope], entered with [exc]. *)
Definition gen_except_clause (exc : Scope.caught) (w : Limiter.world) (st : state U)
    : state U :=
  mk (main st) (GCleanup exc (gen_tasks st)) None false w
     (collector st) (buffer st) (next_idx st) (out st) (outer_tasks st)
     (gen_tasks st) (active_tasks st) (spawned st)
     (posted st ++ Scope.interrupt_remaining gen_id (gen_tasks st) (active_tasks st)).

(** [generate] returns, after [collector.done()] or [collector.error(e)];
    [Scope._run] takes its task out of the outer scope and the task is
    done. *)
Definition gen_return (c : Collector U) (st : state U) : state U :=
  mk (main st) GDone (gen_pending st) (gen_interruptible st) (lim st)
     c (buffer st) (next_idx st) (out st) (outer_tasks st ∖ {[gen_id]})
     ∅ (active_tasks st ∖ {[gen_id]}) (spawned st) (posted st).

Definition gen_deliverable (st : state U) : option Scope.interrupt :=
  if gen_interruptible st then gen_pending st else None.

(** One advance of the task of [generate]:
<<
    try:
        limiter = Limiter(limit)
        async with new_scope() as gen_scope:
            async for i, arg in aenumerate(iterable):
                slot = await limiter.acquire()
                gen_scope.spawn(task, i, arg, slot)
    except Exception as e:
        collector.error(e)
    else:
        collector.done()
>>
    [aenumerate] belongs to [duet.aitertools], which is not among the
    sources; it pairs each item with its 0-based index (section 4.6), so
    that the loop reads [xs !! i] for [i = 0, 1, ...] and ends at the
    first index past the list.  A call of [limiter.acquire()] that finds
    room does not suspend; it is counted as an advance of its own, which
    only adds interleavings. *)
Definition step_gen (st : state U) : option (state U) :=
  match gen st with
  | GLoop i =>
      match xs !! i with
      | Some _ =>
          match Limiter.__aenter__ (lim st) with
          | (Limiter.Entered, w) => Some (spawn_worker i w st)
          | (Limiter.Suspended f, w) =>
              Some (mk (main st) (GAcquire i f) (gen_pending st) (gen_interruptible st) w
                       (collector st) (buffer st) (next_idx st) (out st) (outer_tasks st)
                       (gen_tasks st) (active_tasks st) (spawned st) (posted st))
          end
      | None => Some (set_gen (GFinishing (gen_tasks st)) (gen_tasks st) st)
      end
  | GAcquire i f =>
      match gen_deliverable st with
      | Some intr => Some (gen_except_clause (Scope.CaughtInterrupt intr) (lim st) st)
      | None =>
          if is_set f (lim st).2
          then Some (spawn_worker i (Limiter.__aenter__resume (lim st)) st)
          else None
      end
  | GFinishing waiting_on =>
      match gen_deliverable st with
      | Some intr => Some (gen_except_clause (Scope.CaughtInterrupt intr) (lim st) st)
      | None =>
          if Scope.any_ready waiting_on (active_tasks st) then
            let '(tasks', leave) := Scope.finish_tasks (gen_tasks st) (active_tasks st) in
            if leave then Some (gen_return (collector_done (collector st)) st)
            else Some (set_gen (GFinishing tasks') tasks' st)
          else None
      end
  | GCleanup exc waiting_on =>
      if Scope.any_ready waiting_on (active_tasks st) then
        let '(tasks', leave) := Scope.finish_tasks (gen_tasks st) (active_tasks st) in
        if leave
        then Some (gen_return
                     (collector_error (Scope.exc_value (Scope.reraise exc)) (collector st)) st)
        else Some (set_gen (GCleanup exc tasks') tasks' st)
      else None
  | GDone => None
  end.

(** Whether the task of item [i] has been posted an interrupt. *)
Definition interrupted (i : nat) (st : state U) : bool :=
  bool_decide (worker i ∈ (posted st).*1).

(** The end of the task of item [i], in which [func(arg)] came to [o]:
<<
    try:
        value = await func(arg)
        collector.add((i, value))
    finally:
        slot.release()
>>
    then the end of [Scope._run]; a task that raised posts its error to
    the task of [generate], the main task of its scope.  A task that was
    not interrupted ends as [func] does on its item. *)
Definition step_finish (i : nat) (o : outcome U) (st : state U) : option (state U) :=
  if bool_decide (worker i ∈ active_tasks st)
     && (interrupted i st || bool_decide (func <$> xs !! i = Some o))
  then
    let c := match o with
             | Value value => add i value (collector st)
             | Error _ => collector st
             end in
    let '(_, _, w) := Slot.release acquire_slot (lim st) in
    Some (mk (main st) (gen st)
             (match o with
              | Value _ => gen_pending st
              | Error e => Scope.interrupt_main (Scope.Interrupt (worker i) e) (gen_pending st)
              end)
             (gen_interruptible st) w c (buffer st) (next_idx st) (out st)
             (outer_tasks st) (gen_tasks st ∖ {[worker i]})
             (active_tasks st ∖ {[worker i]}) (spawned st) (posted st))
  else None.

(** Modelled from the spec: the task of item [i] is interrupted before
    its first advance: it ends with the error of the interrupt and runs
    nothing of [Scope._run] nor of [task]: nothing is added to the
    collector, the slot is not released, the task stays in the set of
    [gen_scope] until the next turn of [finish_tasks], and its error is
    posted to the task of [generate] (section 4.2, interrupt contract). *)
Definition step_abort (i : nat) (st : state U) : option (state U) :=
  if bool_decide (worker i ∈ active_tasks st) && interrupted i st
  then
    Some (mk (main st) (gen st)
             (Scope.interrupt_main
                (Scope.Interrupt (worker i) (RuntimeError "scope exited")) (gen_pending st))
             (gen_interruptible st) (lim st) (collector st) (buffer st) (next_idx st)
             (out st) (outer_tasks st) (gen_tasks st)
             (active_tasks st ∖ {[worker i]}) (spawned st) (posted st))
  else None.

Definition set_main (m : main_phase U) (c : Collector U) (b : gmap nat U) (n : nat)
    (o : list U) (tasks' : gset nat) (st : state U) : state U :=
  mk m (gen st) (gen_pending st) (gen_interruptible st) (lim st) c b n o tasks'
     (gen_tasks st) (active_tasks st) (spawned st) (posted st).

(** The except clause of the outer scope, entered with [exc]: the task of
    [generate] is interrupted if it is not done. *)
Definition main_except_clause (exc : Scope.caught) (st : state U) : state U :=
  mk (MCleanup exc (outer_tasks st)) (gen st)
     (match Scope.interrupt_remaining main_id (outer_tasks st) (active_tasks st) with
      | (_, intr) :: _ => Some intr
      | [] => gen_pending st
      end)
     (gen_interruptible st) (lim st) (collector st) (buffer st) (next_idx st) (out st)
     (outer_tasks st) (gen_tasks st) (active_tasks st) (spawned st) (posted st).

(** One advance of the main task: the consumer loop of [pmap_aiter]
<<
    async for i, value in collector:
        buffer[i] = value
        while next_idx in buffer: ...
    while buffer: ...
>>
    inside the scope of [pmap_async]. *)
Definition step_main (st : state U) : option (state U) :=
  match main st with
  | MConsume =>
      match __anext__ (collector st) with
      | None => None
      | Some (Item i value, c) =>
          let b := <[i := value]> (buffer st) in
          let '(b', n', o') := flush (size b) b (next_idx st) (out st) in
          Some (set_main MConsume c b' n' o' (outer_tasks st) st)
      | Some (StopAsyncIteration, c) =>
          match drain (size (buffer st)) (buffer st) (next_idx st) (out st) with
          | inr o' =>
              Some (set_main (MFinishing (outer_tasks st)) c ∅ (next_idx st) o'
                      (outer_tasks st) st)
          | inl e => Some (main_except_clause (Scope.CaughtException e) st)
          end
      | Some (Failed e, c) => Some (main_except_clause (Scope.CaughtException e) st)
      end
  | MFinishing waiting_on =>
      if Scope.any_ready waiting_on (active_tasks st) then
        let '(tasks', leave) := Scope.finish_tasks (outer_tasks st) (active_tasks st) in
        Some (set_main (if leave then MReturned (out st) else MFinishing tasks')
                (collector st) (buffer st) (next_idx st) (out st) tasks' st)
      else None
  | MCleanup exc waiting_on =>
      if Scope.any_ready waiting_on (active_tasks st) then
        let '(tasks', leave) := Scope.finish_tasks (outer_tasks st) (active_tasks st) in
        Some (set_main (if leave then MRaised (Scope.reraise exc) else MCleanup exc tasks')
                (collector st) (buffer st) (next_idx st) (out st) tasks' st)
      else None
  | MReturned _ | MRaised _ => None
  end.

Definition step (st : state U) (ev : event U) : option (state U) :=
  match ev with
  | Gen => step_gen st
  | Finish i o => step_finish i o st
  | Abort i => step_abort i st
  | Main => step_main st
  end.

Fixpoint exec (st : state U) (evs : list (event U)) : option (state U) :=
  match evs with
  | [] => Some st
  | ev :: evs' =>
      match step st ev with
      | Some st' => exec st' evs'
      | None => None
      end
  end.

(** The call has returned or raised. *)
Definition final (st : state U) : bool :=
  match main st with
  | MReturned _ | MRaised _ => true
  | _ => false
  end.

(** No worker task is active. *)
Definition no_worker_active (st : state U) : Prop :=
  ∀ i, worker i ∉ active_tasks st.

(** [func] raises [e] on some item of the input. *)
Definition raised_by_func (e : exn) : Prop :=
  ∃ i x, xs !! i = Some x ∧ func x = Error e.


(** *** What holds at every point of a call *)

(** A task made for an item. *)
Definition is_worker (st : state U) (t : nat) : Prop :=
  ∃ j, (j < spawned st)%nat ∧ t = worker j.

(** [func] returns [v] on item [j]. *)
Definition yields (j : nat) (v : U) : Prop :=
  ∃ x, xs !! j = Some x ∧ func x = Value v.

(** The task sets. *)
Record inv_tasks (st : state U) : Prop := mkInvTasks {
  it_main : main_id ∈ active_tasks st;
  it_active : ∀ t, t ∈ active_tasks st → t = main_id ∨ t = gen_id ∨ is_worker st t;
  it_gen_tasks : ∀ t, t ∈ gen_tasks st →
    is_worker st t ∧ (posted st = [] → t ∈ active_tasks st);
  it_children : ∀ j, worker j ∈ active_tasks st → worker j ∈ gen_tasks st;
  it_spawned : (spawned st ≤ length xs)%nat;
  it_gen :
    match gen st with
    | GLoop i => spawned st = i
    | GAcquire i f => spawned st = i ∧ (i < length xs)%nat
    | GFinishing s =>
        (∀ t, t ∈ s → is_worker st t) ∧ gen_tasks st ⊆ s ∧ spawned st = length xs
    | GCleanup _ s => (∀ t, t ∈ s → is_worker st t) ∧ gen_tasks st ⊆ s
    | GDone => gen_tasks st = ∅
    end;
  it_gen_done :
    match gen st with
    | GDone =>
        (gen_id ∉ active_tasks st) ∧ outer_tasks st = ∅
        ∧ finished (collector st) ≠ None
    | _ =>
        gen_id ∈ active_tasks st ∧ outer_tasks st = {[gen_id]}
        ∧ finished (collector st) = None ∧ main st = MConsume
    end;
  it_main_phase :
    match main st with
    | MFinishing s | MCleanup _ s => s = ∅
    | _ => True
    end
}.

(** The limiter of [generate]: until a worker is interrupted every
    worker in the scope holds a slot, and only [generate] ever waits. *)
Record inv_lim (st : state U) : Prop := mkInvLim {
  il_capacity : Limiter.capacity (lim st).1 = limit;
  il_count : posted st = [] →
    Limiter.count (lim st).1 = Z.of_nat (size (gen_tasks st));
  il_available : Limiter.available_waiters (lim st).1 = [];
  il_created : ∀ f, f ∈ resolved (lim st).2 ∨ f ∈ Limiter.waiters (lim st).1 →
    (f < next_fut (lim st).2)%nat;
  il_waiters :
    match gen st with
    | GLoop _ => Limiter.waiters (lim st).1 = []
    | GAcquire _ f =>
        (Limiter.waiters (lim st).1 = [f] ∧ (f ∉ resolved (lim st).2)
         ∧ Limiter.is_available (lim st).1 = false)
        ∨ (Limiter.waiters (lim st).1 = [] ∧ f ∈ resolved (lim st).2)
    | _ => True
    end
}.

(** The errors: until [generate] has caught an interrupt no worker is
    interrupted, so every error comes from [func]. *)
Record inv_err (st : state U) : Prop := mkInvErr {
  ie_posted : gen_interruptible st = true → posted st = [];
  ie_pending : gen_interruptible st = true →
    ∀ intr, gen_pending st = Some intr → raised_by_func (Scope.error intr);
  ie_gen :
    match gen st with
    | GCleanup exc _ =>
        gen_interruptible st = false ∧ raised_by_func (Scope.triggering_error exc)
    | GDone =>
        (finished (collector st) = Some None ∧ gen_interruptible st = true
         ∧ gen_pending st = None ∧ spawned st = length xs)
        ∨ (∃ e, finished (collector st) = Some (Some e) ∧ raised_by_func e
                ∧ gen_interruptible st = false)
    | _ => gen_interruptible st = true
    end;
  ie_main :
    match main st with
    | MConsume => True
    | MFinishing _ | MReturned _ => finished (collector st) = Some None
    | MCleanup exc _ => ∃ e, exc = Scope.CaughtException e ∧ raised_by_func e
    | MRaised r => raised_by_func (Scope.exc_value r)
    end
}.

(** No worker has failed so far. *)
Definition normal (st : state U) : Prop :=
  gen_interruptible st = true ∧ gen_pending st = None.

(** The results, as long as no worker has failed: every item that was
    handed to a worker is in exactly one place (its worker is active, its
    result is queued in the collector, it is in the buffer, or it was
    yielded), and what was yielded is what [func] returns on the first
    [next_idx] items. *)
Record data_ok (st : state U) : Prop := mkDataOk {
  id_out : Value <$> out st = func <$> take (next_idx st) xs;
  id_buffer : ∀ j v, buffer st !! j = Some v →
    yields j v ∧ (next_idx st ≤ j)%nat ∧ (j < spawned st)%nat;
  id_items : ∀ j v, (j, v) ∈ items (collector st) →
    yields j v ∧ (next_idx st ≤ j)%nat ∧ (j < spawned st)%nat ∧ buffer st !! j = None;
  id_items_nodup : NoDup (items (collector st)).*1;
  id_active : ∀ j, worker j ∈ active_tasks st →
    (next_idx st ≤ j)%nat ∧ buffer st !! j = None ∧ j ∉ (items (collector st)).*1;
  id_delivered : ∀ j, (j < spawned st)%nat →
    worker j ∈ active_tasks st ∨ (j < next_idx st)%nat
    ∨ is_Some (buffer st !! j) ∨ j ∈ (items (collector st)).*1;
  id_next : buffer st !! next_idx st = None;
  id_next_le : (next_idx st ≤ spawned st)%nat;
  id_returned :
    match main st with
    | MFinishing _ => Value <$> out st = func <$> xs
    | MReturned l => Value <$> l = func <$> xs
    | _ => True
    end
}.

Record inv (st : state U) : Prop := mkInv {
  inv_t : inv_tasks st;
  inv_l : inv_lim st;
  inv_e : inv_err st;
  inv_d : normal st → data_ok st
}.

(** The number of advances that a call can still make is bounded by
    this. *)
Definition gen_rank (st : state U) : nat :=
  match gen st with
  | GLoop i => 4 + 5 * (length xs - i)
  | GAcquire i _ => 3 + 5 * (length xs - i)
  | GFinishing s => 2 + size (s ∖ active_tasks st)
  | GCleanup _ s => 1 + size (s ∖ active_tasks st)
  | GDone => 0
  end.

Definition main_rank (st : state U) : nat :=
  match main st with
  | MConsume => 2
  | MFinishing _ | MCleanup _ _ => 1
  | MReturned _ | MRaised _ => 0
  end.

Definition steps_left (st : state U) : nat :=
  main_rank st + length (items (collector st)) + gen_rank st
  + 3 * size (active_tasks st).

End Machine.

End Pmap.

(** ** awaitable_func *)

(** The Python callables that [awaitable_func] tells apart, with the
    attribute [__name__] that [functools.wraps] copies. *)
Inductive pyfunc (A D : Type) : Type :=
| CoroutineFunction (__name__ : string) (body : A → coro D (pyobj D))
                                       (* [inspect.iscoroutinefunction] holds *)
| GeneratorFunction (__name__ : string) (* [inspect.isgeneratorfunction] holds *)
| PlainFunction (__name__ : string) (body : A → outcome (pyobj D)).
                                       (* any other callable: returns or raises *)
Global Arguments CoroutineFunction {A D} __name__ body.
Global Arguments GeneratorFunction {A D} __name__.
Global Arguments PlainFunction {A D} __name__ body.

Section AwaitableFunc.

Context {A D : Type}.
Variable isfuture : pyobj D → bool.
Variable wrap : pyobj D → pyobj D.

(** [awaitable_func]:
<<
    if inspect.iscoroutinefunction(function):
        return function
    if inspect.isgeneratorfunction(function):
        raise TypeError(
            "cannot use generator function with duet; please convert to "
            f"async function instead: {function.__name__}"
        )
    @functools.wraps(function)
    async def wrapped( *args, **kw):
        return await awaitable(function( *args, **kw))
    return wrapped
>>
    An exception raised by [function( *args, **kw)] leaves the coroutine
    [wrapped] as it is. *)
Definition awaitable_func (function : pyfunc A D) : exn + pyfunc A D :=
  match function with
  | CoroutineFunction _ _ => inr function
  | GeneratorFunction name =>
      inl (TypeError ("cannot use generator function with duet; please convert to "
                      +:+ "async function instead: " +:+ name))
  | PlainFunction name body =>
      inr (CoroutineFunction name
             (fun args => match body args with
                          | Value value => await (awaitable isfuture wrap value)
                          | Error e => Raise e
                          end))
  end.

End AwaitableFunc.

(** The coroutine that a call of a coroutine function makes; calling
    anything else does not give a coroutine. *)
Definition call_coroutine {A D : Type} (function : pyfunc A D) (args : A)
    : option (coro D (pyobj D)) :=
  match function with
  | CoroutineFunction _ body => Some (body args)
  | GeneratorFunction _ | PlainFunction _ _ => None
  end.

(** ** Bookkeeping over the runs of a scope *)



(** The scope has been left, normally or by raising. *)
Definition scope_left (st : Scope.state) : Prop := Scope.running st = false.

(** ** Bookkeeping over interleavings on one limiter *)

(** The number of releases in an interleaving. *)
Fixpoint releases (evs : list LimiterTrace.event) : nat :=
  match evs with
  | [] => 0
  | LimiterTrace.Release :: evs' => S (releases evs')
  | _ :: evs' => releases evs'
  end.

(** The capacity is never assigned to in the interleaving. *)
Definition keeps_capacity (evs : list LimiterTrace.event) : Prop :=
  ∀ c, LimiterTrace.SetCapacity c ∉ evs.

(** ** Bookkeeping over the runs of pmap *)

(** The worker tasks that are not done. *)
Definition active_workers {U : Type} (st : Pmap.state U) : gset nat :=
  Pmap.active_tasks st ∖ {[Pmap.main_id; Pmap.gen_id]}.

(** The error of the first call of [func] that ended by raising, in the
    order of the run. *)
Fixpoint first_error {U : Type} (evs : list (Pmap.event U)) : option exn :=
  match evs with
  | [] => None
  | Pmap.Finish _ (Error e) :: _ => Some e
  | _ :: evs' => first_error evs'
  end.

(** With limit [k], the count of the limiter of [generate] is at most
    [k] and at least the number of active workers, and when [generate]
    has been woken in [acquire] there is room for the slot it takes. *)
Definition within_limit {U : Type} (k : Z) (st : Pmap.state U) : Prop :=
  Z.of_nat (size (active_workers st)) ≤ Limiter.count (Pmap.lim st).1
  ∧ Limiter.count (Pmap.lim st).1 ≤ k
  ∧ match Pmap.gen st with
    | Pmap.GAcquire _ f =>
        f ∈ resolved (Pmap.lim st).2 → Limiter.count (Pmap.lim st).1 < k
    | _ => True
    end.

(** How far the first error [fe] of a run has got: while no call has
    failed nothing is queued on [generate] and the consumer has not
    caught anything; the error of the first call that failed is queued on
    [generate], then caught by its scope, then handed to the collector,
    then caught and raised by the consumer. *)
Definition error_settled {U : Type} (fe : option exn) (st : Pmap.state U) : Prop :=
  match fe with
  | None =>
      Pmap.normal st
      ∧ match Pmap.main st with
        | Pmap.MCleanup _ _ | Pmap.MRaised _ => False
        | _ => True
        end
  | Some e =>
      match Pmap.gen st with
      | Pmap.GLoop _ | Pmap.GAcquire _ _ | Pmap.GFinishing _ =>
          Pmap.gen_interruptible st = true
          ∧ ∃ t, Pmap.gen_pending st = Some (Scope.Interrupt t e)
      | Pmap.GCleanup exc _ => Scope.triggering_error exc = e
      | Pmap.GDone => Pmap.finished (Pmap.collector st) = Some (Some e)
      end
      ∧ match Pmap.main st with
        | Pmap.MConsume => True
        | Pmap.MFinishing _ | Pmap.MReturned _ => False
        | Pmap.MCleanup exc _ => exc = Scope.CaughtException e
        | Pmap.MRaised r => Scope.exc_value r = e
        end
  end.

(** The first error among [fe], which came first, and the events [evs]. *)
Definition first_error_from {U : Type} (fe : option exn) (evs : list (Pmap.event U))
    : option exn :=
  match fe with
  | Some e => Some e
  | None => first_error evs
  end.

(** With a limit below 1 and an input that is not empty, [generate]
    never gets past its first [acquire]: no worker is made, nothing
    reaches the collector, and the consumer waits. *)
Definition waits_for_first_slot {U : Type} (st : Pmap.state U) : Prop :=
  Pmap.main st = Pmap.MConsume
  ∧ Pmap.collector st = Pmap.mkCollector [] None
  ∧ Pmap.gen_pending st = None
  ∧ Limiter.count (Pmap.lim st).1 = 0
  ∧ Pmap.spawned st = 0%nat
  ∧ Pmap.no_worker_active st
  ∧ (Pmap.gen st = Pmap.GLoop 0
     ∨ ∃ f, Pmap.gen st = Pmap.GAcquire 0 f ∧ f ∉ resolved (Pmap.lim st).2).

(** * Properties *)

(** ** Limiter and Slot *)

Section LimiterFacts.

Import Limiter.

Lemma release_count (w : world) : count (_release w).1 = count w.1 - 1.
Proof. destruct w as [l fs]. unfold _release. simpl. by destruct (waiters l). Qed.

Lemma release_capacity (w : world) : capacity (_release w).1 = capacity w.1.
Proof. destruct w as [l fs]. unfold _release. simpl. by destruct (waiters l). Qed.

Lemma release_waiters (w : world) : waiters (_release w).1 = drop 1 (waiters w.1).
Proof. destruct w as [l fs]. unfold _release. simpl. by destruct (waiters l). Qed.

Lemma foldl_try_set_resolved (fs : futures) (l : list fut) :
  resolved (foldl (fun acc f => try_set_result f acc) fs l)
  = list_to_set l ∪ resolved fs.
Proof.
  revert fs. induction l as [|f l IH]; intros fs; simpl.
  - set_solver.
  - rewrite IH. simpl. set_solver.
Qed.

Lemma release_resolved (w : world) :
  resolved (_release w).2
  = list_to_set (take 1 (waiters w.1)) ∪ list_to_set (available_waiters w.1)
    ∪ resolved w.2.
Proof.
  destruct w as [l fs]. unfold _release. simpl.
  destruct (waiters l) as [|f rest]; simpl;
    rewrite foldl_try_set_resolved; simpl; set_solver.
Qed.

Lemma foldl_try_set_next (fs : futures) (l : list fut) :
  next_fut (foldl (fun acc f => try_set_result f acc) fs l) = next_fut fs.
Proof. revert fs. induction l as [|f l IH]; intros fs; simpl; [done|]. by rewrite IH. Qed.

Lemma release_next_fut (w : world) : next_fut (_release w).2 = next_fut w.2.
Proof.
  destruct w as [l fs]. unfold _release. simpl.
  destruct (waiters l); simpl; by rewrite foldl_try_set_next.
Qed.

Lemma release_available_waiters (w : world) : available_waiters (_release w).1 = [].
Proof. destruct w as [l fs]. unfold _release. simpl. by destruct (waiters l). Qed.

End LimiterFacts.

(** C8.  The slot returned by [acquire] releases the limiter exactly once:
    the first [release] succeeds and is one call of [Limiter._release]
    (the count goes down by one); from then on every [release] of that
    slot raises [Exception("Already released.")] and leaves the slot and
    the limiter (count, waiter queues, futures) as they were. *)
Theorem slot_release_exactly_once (w : Limiter.world) :
  let '(r1, s1, w1) := Slot.release acquire_slot w in
  r1 = inr tt
  ∧ w1 = Limiter._release w
  ∧ Limiter.count w1.1 = Limiter.count w.1 - 1
  ∧ ∀ w2 : Limiter.world,
      Slot.release s1 w2 = (inl (Exception "Already released."), s1, w2).
Proof.
  unfold acquire_slot, Slot.__init__, Slot.release. simpl.
  split; [done|]. split; [done|]. split; [apply release_count|]. done.
Qed.

Section LimiterTraceFacts.

Import LimiterTrace.




End LimiterTraceFacts.




(** C4, counterexample.  A limiter of capacity 3 with three holders and
    one queued call has its capacity set to 1.  The next release brings
    the count to 2, which is not below the capacity, and still sets the
    future of the queued call; when that call is resumed the count is 3. *)
Lemma release_wakes_waiter_above_capacity :
  match LimiterTrace.exec (LimiterTrace.init (Some 3))
          [LimiterTrace.Acquire; LimiterTrace.Acquire; LimiterTrace.Acquire;
           LimiterTrace.Acquire; LimiterTrace.SetCapacity (Some 1)] with
  | Some st =>
      LimiterTrace.lim st = (Limiter.mk (Some 1) 3 [0%nat] [], mkFutures 1%nat ∅)
      ∧ ¬ release_respects_capacity (LimiterTrace.lim st)
      ∧ match LimiterTrace.exec st [LimiterTrace.Release; LimiterTrace.Resume 0%nat] with
        | Some st' =>
            Limiter.capacity (LimiterTrace.lim st').1 = Some 1
            ∧ Limiter.count (LimiterTrace.lim st').1 = 3
            ∧ LimiterTrace.admitted st' = [0; 1; 2; 3]%nat
        | None => False
        end
  | None => False
  end.
Proof.
  vm_compute LimiterTrace.exec at 1. cbv beta iota.
  split; [reflexivity|]. split.
  - intros H. specialize (H 1 0%nat eq_refl eq_refl).
    assert (Hc : 2 < 1); [|lia].
    apply H; vm_compute; set_solver.
  - vm_compute. repeat split; reflexivity.
Qed.

(** C4, as amended.  With a capacity [c] set, a call of [__aenter__] made
    while [count >= c] is not admitted: it queues a fresh future and
    leaves the count as it is.  A release takes one from the count and,
    whenever the queue is not empty, pops its head and sets it: the count
    is not compared with the capacity there. *)
Theorem limiter_gate_at_acquire_only (l : Limiter.t) (fs : futures) :
  (∀ c : Z, Limiter.capacity l = Some c → c ≤ Limiter.count l →
     Limiter.__aenter__ (l, fs)
     = (Limiter.Suspended (next_fut fs),
        (Limiter.mk (Some c) (Limiter.count l)
           (Limiter.waiters l ++ [next_fut fs]) (Limiter.available_waiters l),
         mkFutures (S (next_fut fs)) (resolved fs))))
  ∧ (∀ (f : fut) (rest : list fut), Limiter.waiters l = f :: rest →
       let w' := Limiter._release (l, fs) in
       Limiter.count w'.1 = Limiter.count l - 1
       ∧ Limiter.capacity w'.1 = Limiter.capacity l
       ∧ Limiter.waiters w'.1 = rest
       ∧ f ∈ resolved w'.2).
Proof.
  split.
  - intros c Hc Hle. unfold Limiter.__aenter__, Limiter.is_available.
    rewrite Hc. rewrite bool_decide_eq_false_2 by lia. simpl.
    by rewrite <- Hc.
  - intros f rest Hw w'. subst w'.
    rewrite (release_count (l, fs)), (release_capacity (l, fs)),
      (release_waiters (l, fs)), (release_resolved (l, fs)). simpl.
    rewrite Hw. simpl. repeat split; try done. set_solver.
Qed.

Lemma limiter_gate_at_acquire_only_witness :
  Limiter.__aenter__ (Limiter.mk (Some 1) 3 [0%nat] [], mkFutures 1%nat ∅)
  = (Limiter.Suspended 1%nat,
     (Limiter.mk (Some 1) 3 [0; 1]%nat [], mkFutures 2%nat ∅))
  ∧ (0%nat ∈ resolved (Limiter._release (Limiter.mk (Some 1) 3 [0%nat] [], mkFutures 1%nat ∅)).2
     ∧ Limiter.count (Limiter._release (Limiter.mk (Some 1) 3 [0%nat] [], mkFutures 1%nat ∅)).1 = 2).
Proof.
  pose proof (limiter_gate_at_acquire_only
                (Limiter.mk (Some 1) 3 [0%nat] []) (mkFutures 1%nat ∅)) as [Ha Hr].
  split.
  - apply (Ha 1); [reflexivity | simpl; lia].
  - destruct (Hr 0%nat [] eq_refl) as (Hc & _ & _ & Hf). split; [exact Hf | exact Hc].
Defined.

(** ** awaitable and run *)

(** C10.  [awaitable] returns an awaitable argument as it is; for an
    argument that is neither awaitable nor a future, awaiting the result
    gives back the argument, without suspending. *)
Theorem awaitable_identity_or_unit {D : Type} (isfuture : pyobj D → bool)
    (wrap : pyobj D → pyobj D) :
  (∀ v : pyobj D, isawaitable v = true → awaitable isfuture wrap v = v)
  ∧ (∀ v : pyobj D, isawaitable v = false → isfuture v = false →
       await (awaitable isfuture wrap v) = Return v).
Proof.
  split.
  - intros v Hv. unfold awaitable. by rewrite Hv.
  - intros v Hv Hf. unfold awaitable. by rewrite Hv, Hf.
Qed.

Lemma awaitable_identity_or_unit_witness :
  awaitable (fun _ => false) (fun o => o) (AwaitableFutureObj (D := Z) 4%nat)
  = AwaitableFutureObj 4%nat
  ∧ await (awaitable (fun _ => false) (fun o => o) (Plain 7)) = Return (Plain 7).
Proof.
  pose proof (awaitable_identity_or_unit (D := Z) (fun _ => false) (fun o => o))
    as [Hid Hunit].
  split.
  - apply Hid. reflexivity.
  - apply Hunit; reflexivity.
Defined.

Section RunFacts.

Context {D R : Type}.

Lemma resume_sync (futs : Impl.store (D := D)) (c : coro D R) (o : outcome R) :
  sync_result c = Some o → Impl.resume futs c = c.
Proof. by destruct c. Qed.

Lemma advance_sync (futs : Impl.store (D := D)) (c : coro D R) (o : outcome R) :
  sync_result c = Some o →
  Impl.advance futs (Impl.mkTask c false None) = Impl.mkTask c true (Some o).
Proof.
  intros Hs. unfold Impl.advance. simpl.
  destruct c; simpl in *; by inversion Hs.
Qed.

End RunFacts.

(** C9.  For an async function whose body, on the given arguments, comes
    to a result without awaiting, [run] gives exactly that result: it
    returns the value the body returns and raises the exception the body
    raises, whatever happens to futures outside. *)
Theorem run_without_await {D R A : Type} (func : A → coro D R) (args : A)
    (world : list (fut * outcome D)) (o : outcome R) :
  sync_result (func args) = Some o →
  run func args world = Some o.
Proof.
  intros Hs. unfold run, Impl.spawn, Impl.new_scheduler. simpl.
  destruct world as [|[f r] world]; simpl;
    unfold Impl.active_tasks, Impl.tick; simpl;
    rewrite (advance_sync _ _ _ Hs); simpl; reflexivity.
Qed.

Lemma run_without_await_witness :
  run (D := Z) (fun a : Z => Return (a * 2)) 21 [] = Some (Value 42)
  ∧ run (D := Z) (R := Z) (fun _ : unit => Raise (ValueError "oops!")) tt [(0%nat, Value 1)]
    = Some (Error (ValueError "oops!")).
Proof.
  split.
  - apply (run_without_await (D := Z) (fun a : Z => Return (a * 2)) 21 []). reflexivity.
  - apply (run_without_await (D := Z) (R := Z)
             (fun _ : unit => Raise (ValueError "oops!")) tt [(0%nat, Value 1)]).
    reflexivity.
Defined.

(** ** new_scope *)

Section ScopeFacts.

Import Scope.

Lemma exec_app (st : state) (evs1 evs2 : list event) :
  exec st (evs1 ++ evs2) = exec st evs1 ≫= fun st' => exec st' evs2.
Proof.
  revert st. induction evs1 as [|ev evs1 IH]; intros st; simpl; [done|].
  destruct (step st ev); simpl; [apply IH | done].
Qed.


Lemma exec_invariant (P : state → Prop) :
  (∀ st ev st', P st → step st ev = Some st' → P st') →
  ∀ evs st st', P st → exec st evs = Some st' → P st'.
Proof.
  intros Hstep evs. induction evs as [|ev evs IH]; intros st st' HP Hex; simpl in Hex.
  - by inversion Hex; subst.
  - destruct (step st ev) as [st1|] eqn:Hst; [|done]. eauto.
Qed.

Lemma elem_of_interrupt_remaining (m : nat) (ts act : gset nat) (task : nat) (i : interrupt) :
  (task, i) ∈ interrupt_remaining m ts act ↔
  i = Interrupt m (RuntimeError "scope exited") ∧ task ∈ ts ∧ task ∈ act.
Proof.
  unfold interrupt_remaining. rewrite list_elem_of_fmap. split.
  - intros (t & Heq & Hin). inversion Heq; subst.
    apply list_elem_of_filter in Hin as [Hact Hin]. apply elem_of_elements in Hin. done.
  - intros (-> & Hts & Hact). exists task. split; [done|].
    apply list_elem_of_filter. split; [done|]. by apply elem_of_elements.
Qed.

Lemma inv_init : inv init.
Proof.
  split; simpl; try done; try set_solver.
Qed.

Lemma inv_except_clause (exc : caught) (p : option interrupt) (st : state) :
  inv st → running st = true → posted st = [] → inv (except_clause exc p st).
Proof.
  intros [H1 H2 H3 H4 H5 H6 H7] Hrun Hposted. split; simpl; try done.
  intros task i. rewrite Hposted. simpl.
  rewrite elem_of_interrupt_remaining. intros (-> & Hts & _). split; [done|]. set_solver.
Qed.


Ltac solve_sets :=
  repeat match goal with
         | H : match _ with _ => _ end |- _ => clear H
         | H : context [posted _] |- _ => clear H
         end;
  set_solver.

Ltac unfold_state :=
  unfold except_clause, set_phase, spawn, _run_finally, aborted, running;
  cbn [tasks spawned active_tasks at_phase main_task posted interruptible pending
       next_task failures].

Lemma inv_step (st st' : state) (ev : event) :
  inv st → step st ev = Some st' → inv st'.
Proof.
  intros Hinv Hstep. pose proof Hinv as [H1 H2 H3 H4 H5 H6 H7].
  destruct ev as [|task|task e|task| |e|]; simpl in Hstep.
  - (* Spawn *)
    destruct (running st) eqn:Hrun; [|done]. inversion Hstep; subst; clear Hstep.
    unfold running in Hrun.
    split; unfold_state; try done.
    + solve_sets.
    + solve_sets.
    + by rewrite Hrun.
    + intros task i Hin. destruct (H6 task i Hin) as [-> Hs]. split; [done|]. set_solver.
    + destruct (at_phase st); try done; solve_sets.
  - (* ChildReturn *)
    destruct (running st) eqn:Hrun; [|done]. destruct (is_child task st); [|done].
    inversion Hstep; subst; clear Hstep. unfold running in Hrun.
    split; unfold_state; try done.
    + solve_sets.
    + solve_sets.
    + by rewrite Hrun.
  - (* ChildRaise *)
    destruct (running st) eqn:Hrun; [|done]. destruct (is_child task st); [|done].
    inversion Hstep; subst; clear Hstep. unfold running in Hrun.
    split; unfold_state; try done.
    + solve_sets.
    + solve_sets.
    + by rewrite Hrun.
  - (* ChildAbort *)
    destruct (running st) eqn:Hrun; [|done]. destruct (is_child task st); [|done].
    simpl in Hstep. case_bool_decide; [|done].
    inversion Hstep; subst; clear Hstep. unfold running in Hrun.
    split; unfold_state; try done.
    + solve_sets.
    + by rewrite Hrun.
  - (* BodyReturn *)
    destruct (at_phase st) eqn:Hph; try done. destruct (deliverable st); [done|].
    inversion Hstep; subst; clear Hstep.
    split; unfold_state; try done.
  - (* BodyRaise *)
    destruct (at_phase st) eqn:Hph; try done. destruct (deliverable st); [done|].
    inversion Hstep; subst; clear Hstep.
    apply inv_except_clause; [|done|done].
    split; unfold_state; try done.
  - (* Advance *)
    destruct (at_phase st) as [|s|exc s| |r] eqn:Hph; try done.
    + destruct (deliverable st); [|done]. inversion Hstep; subst; clear Hstep.
      apply inv_except_clause; [done|by unfold running; rewrite Hph|try done].
    + destruct (deliverable st).
      * inversion Hstep; subst; clear Hstep.
        apply inv_except_clause; [done|by unfold running; rewrite Hph|try done].
      * destruct (any_ready s (active_tasks st)); [|done]. simpl in Hstep.
        inversion Hstep; subst; clear Hstep.
        split; unfold_state; try done.
        -- solve_sets.
        -- solve_sets.
        -- case_bool_decide; done.
        -- by case_bool_decide.
        -- case_bool_decide; [done|]. solve_sets.
    + assert (Hgo : (if any_ready s (active_tasks st) then
                let '(tasks', leave) := finish_tasks (tasks st) (active_tasks st) in
                Some (set_phase (if leave then Reraised (reraise exc) else Cleanup exc tasks')
                        tasks' st)
              else None) = Some st') by (by destruct (deliverable st)).
      clear Hstep. destruct (any_ready s (active_tasks st)); [|done]. simpl in Hgo.
      inversion Hgo; subst; clear Hgo.
      split; unfold_state; try done.
      -- solve_sets.
      -- solve_sets.
      -- case_bool_decide; done.
      -- by case_bool_decide.
      -- case_bool_decide; [done|]. solve_sets.
Qed.

Lemma first_failure_init : first_failure_inv init.
Proof. by unfold first_failure_inv. Qed.

Lemma first_failure_step (st st' : state) (ev : event) :
  first_failure_inv st → step st ev = Some st' → first_failure_inv st'.
Proof.
  unfold first_failure_inv, step, deliverable, running.
  intros Hinv Hstep.
  destruct ev as [|task|task e|task| |e|];
    destruct (at_phase st) as [|s|exc s| |r] eqn:Hph; simpl in Hstep; try done;
    destruct (failures st) as [|[t0 e0|e0] fl] eqn:Hfl; try done;
    destruct_and?;
    repeat match goal with
           | H : pending st = _ |- _ => rewrite H in Hstep
           | H : interruptible st = _ |- _ => rewrite H in Hstep
           end;
    repeat match type of Hstep with
           | (if ?c then _ else _) = Some _ => destruct c eqn:?; try done
           | match ?c with _ => _ end = Some _ => destruct c eqn:?; try done
           end;
    simpl in Hstep; inversion Hstep; subst; clear Hstep;
    unfold_state; rewrite ?Hfl, ?Hph; simpl;
    repeat match goal with
           | H : pending st = _ |- _ => rewrite H
           | H : interruptible st = _ |- _ => rewrite H
           end;
    repeat case_bool_decide; simpl; try done; try naive_solver.
Qed.

Lemma inv_reachable (evs : list event) (st : state) :
  exec init evs = Some st → inv st ∧ first_failure_inv st.
Proof.
  intros Hex. split.
  - eapply (exec_invariant inv); [intros; by eapply inv_step|apply inv_init|exact Hex].
  - eapply (exec_invariant first_failure_inv);
      [intros; by eapply first_failure_step|apply first_failure_init|exact Hex].
Qed.




(** The step into the except clause posts [RuntimeError("scope exited")]
    to the children still active, and to nobody else. *)
Lemma enter_except_clause (st st' : state) (ev : event) (exc : caught) (s : gset nat) :
  inv st → step st ev = Some st' →
  (∀ exc0 s0, at_phase st ≠ Cleanup exc0 s0) →
  at_phase st' = Cleanup exc s →
  posted st' = interrupt_remaining (main_task st) (tasks st) (active_tasks st)
  ∧ s = tasks st.
Proof.
  intros Hinv Hstep Hnot Hph'. pose proof Hinv as [H1 H2 H3 H4 H5 H6 H7].
  unfold step in Hstep.
  destruct ev as [|task|task e|task| |e|];
    destruct (at_phase st) as [|s1|exc1 s1| |r] eqn:Hph; simpl in Hstep; try done;
    try (by exfalso; eapply Hnot);
    repeat match type of Hstep with
           | (if ?c then _ else _) = Some _ => destruct c eqn:?; try done
           | match ?c with _ => _ end = Some _ => destruct c eqn:?; try done
           end;
    simpl in Hstep; inversion Hstep; subst; clear Hstep;
    revert Hph'; unfold_state; rewrite ?Hph; try done;
    try (case_bool_decide; done);
    intros Hph'; inversion Hph'; subst; by rewrite H5.
Qed.

End ScopeFacts.

(** C2.  When the block of a scope is left normally, the set [tasks] of
    the scope is empty and every task that was spawned in the scope is
    done. *)
Theorem scope_exit_children_done (evs : list Scope.event) (st : Scope.state) :
  Scope.exec Scope.init evs = Some st →
  Scope.at_phase st = Scope.Exited →
  Scope.tasks st = ∅ ∧ Scope.all_children_done st.
Proof.
  intros Hex Hph. apply inv_reachable in Hex as [[H1 H2 H3 H4 H5 H6 H7] _].
  assert (Ht : Scope.tasks st = ∅) by (apply H3; unfold Scope.running; by rewrite Hph).
  split; [done|]. intros task Hs Ha.
  assert (task ∈ Scope.tasks st) by set_solver. set_solver.
Qed.

Lemma scope_exit_children_done_witness :
  ∃ st, Scope.exec Scope.init
          [Scope.Spawn; Scope.Spawn; Scope.BodyReturn; Scope.ChildReturn 1;
           Scope.Advance; Scope.ChildReturn 2; Scope.Advance] = Some st
        ∧ Scope.at_phase st = Scope.Exited
        ∧ Scope.spawned st = {[1; 2]}%nat
        ∧ Scope.tasks st = ∅ ∧ Scope.all_children_done st.
Proof.
  eexists. split; [vm_compute; reflexivity|].
  split; [reflexivity|]. split; [vm_compute; reflexivity|].
  apply (scope_exit_children_done
           [Scope.Spawn; Scope.Spawn; Scope.BodyReturn; Scope.ChildReturn 1;
            Scope.Advance; Scope.ChildReturn 2; Scope.Advance]).
  - vm_compute. reflexivity.
  - reflexivity.
Defined.

(** C3, counterexample.  A task is spawned and the block raises [Fail]
    while that task is still active: the interrupt posted to the task
    carries [RuntimeError("scope exited")], not [Fail]. *)
Lemma interrupt_does_not_carry_trigger :
  match Scope.exec Scope.init [Scope.Spawn; Scope.BodyRaise (Exn "Fail" "")] with
  | Some st =>
      Scope.at_phase st = Scope.Cleanup (Scope.CaughtException (Exn "Fail" "")) {[1%nat]}
      ∧ Scope.posted st = [(1%nat, Scope.Interrupt 0 (RuntimeError "scope exited"))]
      ∧ ¬ interrupts_carry_trigger st
  | None => False
  end.
Proof.
  vm_compute Scope.exec. cbv beta iota.
  split; [reflexivity|]. split; [reflexivity|].
  intros H.
  specialize (H (Scope.CaughtException (Exn "Fail" "")) {[1%nat]} 1%nat
                (Scope.Interrupt 0 (RuntimeError "scope exited")) eq_refl).
  simpl in H. assert (Hin : RuntimeError "scope exited" = Exn "Fail" "").
  { apply H. apply list_elem_of_here. }
  discriminate Hin.
Qed.

(** C3, as amended.  When the except clause of [new_scope] is entered,
    whether the block raised or an interrupt from a failed child was
    caught, every child that is not yet done is posted an interrupt whose
    source is the main task of the scope and whose error is
    [RuntimeError("scope exited")]; nothing else is posted. *)
Theorem except_clause_posts_scope_exited
    (evs : list Scope.event) (st st' : Scope.state) (ev : Scope.event)
    (exc : Scope.caught) (s : gset nat) :
  Scope.exec Scope.init evs = Some st →
  Scope.step st ev = Some st' →
  (∀ exc0 s0, Scope.at_phase st ≠ Scope.Cleanup exc0 s0) →
  Scope.at_phase st' = Scope.Cleanup exc s →
  (∀ task, task ∈ Scope.spawned st → task ∈ Scope.active_tasks st →
     (task, Scope.Interrupt (Scope.main_task st) (RuntimeError "scope exited"))
       ∈ Scope.posted st')
  ∧ (∀ task i, (task, i) ∈ Scope.posted st' →
       i = Scope.Interrupt (Scope.main_task st) (RuntimeError "scope exited")
       ∧ task ∈ Scope.spawned st ∧ task ∈ Scope.active_tasks st).
Proof.
  intros Hex Hstep Hnot Hph'. apply inv_reachable in Hex as [Hinv _].
  destruct (enter_except_clause st st' ev exc s Hinv Hstep Hnot Hph') as [-> _].
  destruct Hinv as [H1 H2 H3 H4 H5 H6 H7]. split.
  - intros task Hs Ha. apply elem_of_interrupt_remaining.
    split; [done|]. split; [|done]. set_solver.
  - intros task i Hin. apply elem_of_interrupt_remaining in Hin as (-> & Ht & Ha).
    split; [done|]. split; [|done]. set_solver.
Qed.

Lemma except_clause_posts_scope_exited_witness :
  ∃ st st',
    Scope.exec Scope.init [Scope.Spawn; Scope.Spawn; Scope.ChildReturn 1] = Some st
    ∧ Scope.step st (Scope.BodyRaise (Exn "Fail" "")) = Some st'
    ∧ Scope.posted st' = [(2%nat, Scope.Interrupt 0 (RuntimeError "scope exited"))]
    ∧ (∀ task, task ∈ Scope.spawned st → task ∈ Scope.active_tasks st →
         (task, Scope.Interrupt (Scope.main_task st) (RuntimeError "scope exited"))
           ∈ Scope.posted st')
    ∧ (∀ task i, (task, i) ∈ Scope.posted st' →
         i = Scope.Interrupt (Scope.main_task st) (RuntimeError "scope exited")
         ∧ task ∈ Scope.spawned st ∧ task ∈ Scope.active_tasks st).
Proof.
  eexists. eexists. split; [vm_compute; reflexivity|]. split; [vm_compute; reflexivity|].
  split; [vm_compute; reflexivity|].
  eapply (except_clause_posts_scope_exited
            [Scope.Spawn; Scope.Spawn; Scope.ChildReturn 1] _ _
            (Scope.BodyRaise (Exn "Fail" ""))).
  - vm_compute. reflexivity.
  - vm_compute. reflexivity.
  - intros exc0 s0. discriminate.
  - reflexivity.
Defined.




(** ** pmap *)

Global Arguments Limiter._release : simpl never.

Ltac break_step H :=
  repeat match type of H with
         | (if ?c then _ else _) = Some _ => destruct c eqn:?; try done
         | (let '(_, _) := ?c in _) = Some _ => destruct c eqn:?; try done
         | match ?c with _ => _ end = Some _ => destruct c eqn:?; try done
         end;
  try (inversion H; subst; clear H).

Ltac unfold_st :=
  unfold Pmap.spawn_worker, Pmap.set_gen, Pmap.gen_except_clause, Pmap.gen_return, Pmap.set_main,
    Pmap.main_except_clause, Pmap.is_worker in *;
  cbn [Pmap.main Pmap.gen Pmap.gen_pending Pmap.gen_interruptible Pmap.lim Pmap.collector
       Pmap.buffer Pmap.next_idx Pmap.out Pmap.outer_tasks Pmap.gen_tasks
       Pmap.active_tasks Pmap.spawned Pmap.posted Pmap.items Pmap.finished
       Pmap.add Pmap.collector_done Pmap.collector_error] in *.

Ltac list_bounds :=
  repeat match goal with
         | H : ?l !! ?i = Some _ |- _ =>
             lazymatch goal with
             | _ : (i < length l)%nat |- _ => fail
             | _ => pose proof (lookup_lt_Some _ _ _ H)
             end
         | H : ?l !! ?i = None |- _ =>
             lazymatch goal with
             | _ : (length l ≤ i)%nat |- _ => fail
             | _ => pose proof (proj1 (lookup_ge_None _ _) H)
             end
         end.

Ltac clear_match :=
  repeat match goal with
         | H : match _ with _ => _ end |- _ => clear H
         end.

Ltac bool_hyps :=
  repeat match goal with
         | H : bool_decide _ = true |- _ => apply bool_decide_eq_true_1 in H
         | H : bool_decide _ = false |- _ => apply bool_decide_eq_false_1 in H
         | H : _ && _ = true |- _ => apply andb_true_iff in H as [? ?]
         end.

Ltac tasks_solver :=
  list_bounds; bool_hyps; clear_match; destruct_and?;
  first [ done | lia | timeout 5 (by set_solver) | timeout 5 (by eauto with lia) ].


Section PmapTasks.

Import Pmap.

Context {X U : Type} `{!EqDecision U}.
Variable func : X → outcome U.
Variable xs : list X.

Local Abbreviation yields := (yields func xs).

Lemma worker_inj (i j : nat) : worker i = worker j → i = j.
Proof. unfold worker. lia. Qed.

Lemma worker_not_main (i : nat) : worker i ≠ main_id.
Proof. unfold worker, main_id. lia. Qed.

Lemma worker_not_gen (i : nat) : worker i ≠ gen_id.
Proof. unfold worker, gen_id. lia. Qed.

(** The inner loop of the consumer: it yields the entries at [n], [n+1],
    ... up to the first index [n'] that is missing, and leaves the rest
    of the buffer as it is. *)
Lemma flush_spec (turns : nat) (b : gmap nat U) (n : nat) (o : list U) :
  (size b ≤ turns)%nat →
  (∀ j v, b !! j = Some v → yields j v) →
  Value <$> o = func <$> take n xs →
  ∃ b' n' o',
    flush turns b n o = (b', n', o')
    ∧ (n ≤ n')%nat
    ∧ (∀ j, b' !! j = if decide (n ≤ j < n')%nat then None else b !! j)
    ∧ (∀ j, (n ≤ j < n')%nat → is_Some (b !! j))
    ∧ b' !! n' = None
    ∧ Value <$> o' = func <$> take n' xs.
Proof.
  revert b n o. induction turns as [|turns IH]; intros b n o Hsize Hb Ho; simpl.
  - apply Nat.le_0_r, map_size_empty_inv in Hsize. subst b.
    exists ∅, n, o. repeat split; try done.
    + intros j. by case_decide.
    + intros j Hj. lia.
  - destruct (b !! n) as [v|] eqn:Hn.
    + destruct (IH (delete n b) (S n) (o ++ [v])) as (b' & n' & o' & Hf & Hle & Hb' & Hs & Hn' & Ho').
      * rewrite map_size_delete_Some by (by eexists). lia.
      * intros j w Hj. apply lookup_delete_Some in Hj as [_ Hj]. eauto.
      * destruct (Hb n v Hn) as (x & Hx & Hfx).
        rewrite (take_S_r _ _ _ Hx), !fmap_app, Ho. simpl. by rewrite Hfx.
      * exists b', n', o'. split; [done|]. split; [lia|]. split; [|split; [|done]].
        -- intros j. rewrite Hb'. repeat case_decide; try done; try lia.
           ++ destruct (decide (j = n)) as [->|Hne]; [|lia].
              by rewrite lookup_delete_eq.
           ++ rewrite lookup_delete_ne; [done|lia].
        -- intros j Hj. destruct (decide (j = n)) as [->|Hne]; [by eexists|].
           destruct (Hs j) as [w Hw]; [lia|].
           apply lookup_delete_Some in Hw as [_ Hw]. by eexists.
    + exists b, n, o. repeat split; try done.
      * intros j. case_decide; [lia|done].
      * intros j Hj. lia.
Qed.

Local Abbreviation step := (step func xs).
Local Abbreviation inv_tasks := (inv_tasks xs).

Lemma empty_inter (A : gset nat) : ∅ ∩ A = ∅.
Proof. set_solver. Qed.

Lemma finish_tasks_eq (ts act : gset nat) :
  Scope.finish_tasks ts act = (ts ∩ act, bool_decide (ts ∩ act = ∅)).
Proof. done. Qed.

Lemma slot_release_first (w : Limiter.world) :
  Slot.release acquire_slot w = (inr tt, Slot.mk Limiter._release true, Limiter._release w).
Proof. done. Qed.

Lemma gen_id_not_main : gen_id ≠ main_id.
Proof. done. Qed.

Lemma not_interrupted (st : state U) (j : nat) :
  posted st = [] → interrupted j st = false.
Proof.
  intros Hp. unfold interrupted. rewrite Hp.
  by apply bool_decide_eq_false_2, not_elem_of_nil.
Qed.

Lemma inv_tasks_step (st st' : state U) (ev : event U) :
  inv_tasks st → step st ev = Some st' → inv_tasks st'.
Proof.
  intros [H1 H2 H3 H4 H5 H6 H7 H8] Hstep.
  destruct ev as [|j o|j|]; cbn [Pmap.step] in Hstep.
  - unfold step_gen in Hstep. rewrite ?finish_tasks_eq in Hstep.
    break_step Hstep.
    all: split; unfold_st.
    all: try done.
    all: try (split_and?; by tasks_solver).
    all: intros t Ht; destruct (H3 t Ht) as [Hw Ha]; split; [done|];
      intros [Hp _]%app_eq_nil; by apply Ha.
  - unfold step_finish in Hstep. rewrite slot_release_first in Hstep.
    break_step Hstep.
    destruct o as [v|e]; destruct (gen st) eqn:Hg.
    all: split; unfold_st; rewrite ?Hg.
    all: try done.
    all: try (split_and?; by tasks_solver).
  - unfold step_abort in Hstep.
    break_step Hstep. bool_hyps.
    assert (Hpost : posted st ≠ []).
    { intros Hp. by rewrite (not_interrupted st j Hp) in *. }
    destruct (gen st) eqn:Hg.
    all: split; unfold_st; rewrite ?Hg.
    all: try done.
    all: try (intros t Ht; destruct (H3 t Ht); by split).
    all: try (split_and?; by tasks_solver).
  - unfold step_main, __anext__ in Hstep. rewrite ?finish_tasks_eq in Hstep.
    destruct (main st) as [|s|exc s|l|r] eqn:Hm; try done.
    + destruct (items (collector st)) as [|[i v] rest] eqn:Hit.
      * destruct (finished (collector st)) as [[e|]|] eqn:Hfin; [| |done].
        all: destruct (gen st) eqn:Hg; destruct_and?; try done.
        all: break_step Hstep.
        all: split; unfold_st; rewrite ?Hg, ?Hfin; try done.
      * break_step Hstep. destruct (gen st) eqn:Hg.
        all: split; unfold_st; rewrite ?Hg; try done.
    + subst s. break_step Hstep. destruct (gen st) eqn:Hg; destruct_and?; try done.
      split; unfold_st; rewrite ?Hg; try done.
      * by rewrite H7, empty_inter.
      * rewrite H7, empty_inter. by rewrite bool_decide_eq_true_2.
    + subst s. break_step Hstep. destruct (gen st) eqn:Hg; destruct_and?; try done.
      split; unfold_st; rewrite ?Hg; try done.
      * by rewrite H7, empty_inter.
      * rewrite H7, empty_inter. by rewrite bool_decide_eq_true_2.
Qed.

End PmapTasks.

Section PmapLimiter.

Import Pmap.

Context {X U : Type} `{!EqDecision U}.
Variable func : X → outcome U.
Variable xs : list X.
Variable limit : option Z.

Local Abbreviation step := (step func xs).
Local Abbreviation inv_tasks := (inv_tasks xs).
Local Abbreviation inv_lim := (inv_lim limit).

Lemma size_add_worker (ts : gset nat) (t : nat) :
  t ∉ ts → Z.of_nat (size ({[t]} ∪ ts)) = Z.of_nat (size ts) + 1.
Proof. intros Hn. rewrite size_union by set_solver. rewrite size_singleton. lia. Qed.

Lemma size_remove_worker (ts : gset nat) (t : nat) :
  t ∈ ts → Z.of_nat (size (ts ∖ {[t]})) = Z.of_nat (size ts) - 1.
Proof.
  intros Hin. rewrite size_difference by set_solver. rewrite size_singleton.
  assert (size ts ≠ 0%nat); [|lia].
  intros Hz. apply size_empty_inv in Hz. set_solver.
Qed.

Lemma fresh_worker (st : state U) :
  inv_tasks st → (worker (spawned st) ∉ gen_tasks st) ∧ (worker (spawned st) ∉ active_tasks st).
Proof.
  intros [H1 H2 H3 H4 H5 H6 H7 H8]. split.
  - intros Hin. destruct (H3 _ Hin) as [(j & Hj & Heq) _]. apply worker_inj in Heq. lia.
  - intros Hin. destruct (H2 _ Hin) as [Hm|[Hg|(j & Hj & Heq)]].
    + by apply worker_not_main in Hm.
    + by apply worker_not_gen in Hg.
    + apply worker_inj in Heq. lia.
Qed.

Lemma gen_tasks_active (st : state U) :
  inv_tasks st → posted st = [] → gen_tasks st ∩ active_tasks st = gen_tasks st.
Proof.
  intros [H1 H2 H3 H4 H5 H6 H7 H8] Hp. apply set_eq. intros t.
  rewrite elem_of_intersection. split; [by intros [? _]|].
  intros Ht. split; [done|]. by apply H3.
Qed.

Lemma inv_lim_step (st st' : state U) (ev : event U) :
  inv_tasks st → inv_lim st → step st ev = Some st' → inv_lim st'.
Proof.
  intros Ht [L1 L2 L3 L4 L5] Hstep.
  destruct (fresh_worker st Ht) as [Hfresh _].
  pose proof (gen_tasks_active st Ht) as Hga.
  destruct (lim st) as [l fs] eqn:Hlim. cbn [fst snd] in *.
  destruct ev as [|j o|j|]; cbn [Pmap.step] in Hstep.
  - unfold step_gen in Hstep. rewrite ?finish_tasks_eq in Hstep.
    destruct (gen st) as [i|i f|s|exc s|] eqn:Hg; try done.
    + (* the head of the loop *)
      destruct Ht as [_ _ _ _ _ H6 _ _]. rewrite Hg in H6. subst i.
      destruct (xs !! spawned st); [|by break_step Hstep; split; unfold_st; rewrite ?Hlim].
      rewrite Hlim in Hstep. unfold Limiter.__aenter__ in Hstep.
      destruct (Limiter.is_available l) eqn:Hav; simpl in Hstep;
        inversion Hstep; subst; clear Hstep; split; unfold_st; simpl; try done.
      * intros Hp. rewrite size_add_worker by done. rewrite L2 by done. lia.
      * intros f Hf. specialize (L4 f). set_solver by lia.
      * rewrite L5. simpl. left. split; [done|]. split; [|done].
        intros Hin. specialize (L4 (next_fut fs)). set_solver by lia.
    + (* suspended in acquire *)
      destruct Ht as [_ _ _ _ _ H6 _ _]. rewrite Hg in H6. destruct H6 as [<- Hlt].
      rewrite Hlim in Hstep. unfold is_set in Hstep. simpl in Hstep.
      break_step Hstep; split; unfold_st; rewrite ?Hlim; simpl; try done.
      * intros [Hp _]%app_eq_nil. by apply L2.
      * intros Hp. rewrite size_add_worker by done. rewrite L2 by done. lia.
      * bool_hyps. destruct L5 as [(_ & Hn & _)|[Hw _]]; done.
    + break_step Hstep; split; unfold_st; rewrite ?Hlim; cbn [fst snd]; try done.
      * intros [Hp _]%app_eq_nil. by apply L2.
      * intros Hp. rewrite L2 by done. apply bool_decide_eq_true_1 in Heqb0.
        rewrite Hga in Heqb0 by done. by rewrite Heqb0, size_empty.
      * intros Hp. rewrite Hga by done. by apply L2.
    + break_step Hstep; split; unfold_st; rewrite ?Hlim; cbn [fst snd]; try done.
      * intros Hp. rewrite L2 by done. apply bool_decide_eq_true_1 in Heqb0.
        rewrite Hga in Heqb0 by done. by rewrite Heqb0, size_empty.
      * intros Hp. rewrite Hga by done. by apply L2.
  - unfold step_finish in Hstep. rewrite slot_release_first in Hstep.
    break_step Hstep. bool_hyps.
    assert (Hin : worker j ∈ gen_tasks st) by (by apply Ht).
    split; unfold_st; rewrite Hlim.
    + by rewrite (release_capacity (l, fs)).
    + intros Hp. rewrite (release_count (l, fs)), size_remove_worker by done.
      cbn [fst]. rewrite L2 by done. lia.
    + by rewrite (release_available_waiters (l, fs)).
    + intros f. rewrite (release_next_fut (l, fs)), (release_resolved (l, fs)),
        (release_waiters (l, fs)). cbn [fst snd]. rewrite L3. intros Hf. apply L4.
      destruct (Limiter.waiters l) as [|f0 ws]; simpl in Hf; set_solver.
    + destruct (gen st) as [i|i f|s|exc s|] eqn:Hg; try done.
      * rewrite (release_waiters (l, fs)). cbn [fst snd]. by rewrite L5.
      * rewrite (release_waiters (l, fs)), (release_resolved (l, fs)). cbn [fst snd].
        right. destruct L5 as [(Hw & Hn & _)|[Hw Hr]]; rewrite Hw; simpl.
        -- split; [done|]. set_solver.
        -- split; [done|]. set_solver.
  - unfold step_abort in Hstep. break_step Hstep. bool_hyps.
    split; unfold_st; rewrite ?Hlim; cbn [fst snd]; try done.
  - unfold step_main, __anext__ in Hstep. rewrite ?finish_tasks_eq in Hstep.
    destruct (main st) as [|s|exc s|lr|r] eqn:Hm; try done.
    + destruct (items (collector st)) as [|[i v] rest] eqn:Hit.
      * destruct (finished (collector st)) as [[e|]|] eqn:Hfin; [| |done].
        all: break_step Hstep.
        all: split; unfold_st; rewrite ?Hlim; try done.
      * break_step Hstep. split; unfold_st; rewrite ?Hlim; try done.
    + break_step Hstep. split; unfold_st; rewrite ?Hlim; try done.
    + break_step Hstep. split; unfold_st; rewrite ?Hlim; try done.
Qed.

End PmapLimiter.

Section PmapErrors.

Import Pmap.

Context {X U : Type} `{!EqDecision U}.
Variable func : X → outcome U.
Variable xs : list X.

Local Abbreviation step := (step func xs).
Local Abbreviation inv_tasks := (inv_tasks xs).
Local Abbreviation inv_err := (inv_err func xs).
Local Abbreviation data_ok := (data_ok func xs).
Local Abbreviation raised_by_func := (raised_by_func func xs).

Lemma exc_value_reraise (exc : Scope.caught) :
  Scope.exc_value (Scope.reraise exc) = Scope.triggering_error exc.
Proof. by destruct exc. Qed.

Lemma drain_empty (turns n : nat) (o : list U) : drain turns ∅ n o = inr o.
Proof. destruct turns; simpl; by rewrite decide_True. Qed.

(** When the producer has finished without an error and the queue of the
    collector is empty, nothing is left in the buffer and every item has
    been yielded. *)
Lemma all_yielded (st : state U) :
  inv_tasks st → data_ok st → gen st = GDone → spawned st = length xs →
  items (collector st) = [] →
  buffer st = ∅ ∧ (length xs ≤ next_idx st)%nat.
Proof.
  intros [H1 H2 H3 H4 H5 H6 H7 H8] [D1 D2 D3 D4 D5 D6 D7 D8 D9] Hg Hsp Hit.
  rewrite Hg in H6.
  assert (Hle : (length xs ≤ next_idx st)%nat).
  { destruct (decide (length xs ≤ next_idx st)%nat) as [|Hlt]; [done|]. exfalso.
    destruct (D6 (next_idx st)) as [Ha|[Hl|[Hb|Hi]]]; [lia| | | |].
    - apply H4 in Ha. rewrite H6 in Ha. set_solver.
    - lia.
    - rewrite D7 in Hb. by destruct Hb.
    - rewrite Hit in Hi. set_solver. }
  split; [|done]. apply map_eq. intros j. rewrite lookup_empty.
  destruct (buffer st !! j) as [v|] eqn:Hj; [|done].
  destruct (D2 j v Hj) as (_ & ? & ?). lia.
Qed.

Lemma normal_step (st st' : state U) (ev : event U) :
  inv_tasks st → step st ev = Some st' → normal st' → normal st.
Proof.
  intros Ht Hstep [Hi Hp]. unfold normal.
  destruct ev as [|j o|j|]; cbn [Pmap.step] in Hstep.
  - unfold step_gen in Hstep. rewrite ?finish_tasks_eq in Hstep.
    break_step Hstep; unfold_st; done.
  - unfold step_finish in Hstep. rewrite slot_release_first in Hstep.
    break_step Hstep; unfold_st. split; [done|].
    destruct o; [done|]. by destruct (gen_pending st).
  - unfold step_abort in Hstep. break_step Hstep; unfold_st.
    by destruct (gen_pending st).
  - unfold step_main, __anext__ in Hstep. rewrite ?finish_tasks_eq in Hstep.
    destruct Ht as [H1 H2 H3 H4 H5 H6 H7 H8].
    destruct (main st) as [|s|exc s|lr|r] eqn:Hm; try done.
    + destruct (items (collector st)) as [|[i v] rest] eqn:Hit.
      * destruct (finished (collector st)) as [[e|]|] eqn:Hfin; [| |done].
        all: assert (Ho : outer_tasks st = ∅)
          by (destruct (gen st); destruct_and?; congruence).
        all: break_step Hstep; unfold_st; split; try done.
        all: revert Hp; rewrite Ho; unfold Scope.interrupt_remaining;
          by rewrite elements_empty.
      * break_step Hstep; unfold_st; done.
    + break_step Hstep; unfold_st; done.
    + break_step Hstep; unfold_st; done.
Qed.

Lemma main_except_pending (st : state U) (exc : Scope.caught) :
  outer_tasks st = ∅ → gen_pending (main_except_clause exc st) = gen_pending st.
Proof.
  intros Ho. unfold main_except_clause. cbn [gen_pending]. rewrite Ho.
  unfold Scope.interrupt_remaining. by rewrite elements_empty.
Qed.

Lemma inv_err_step (st st' : state U) (ev : event U) :
  inv_tasks st → inv_err st → (normal st → data_ok st) →
  step st ev = Some st' → inv_err st'.
Proof.
  intros Ht [E1 E2 E3 E4] Hd Hstep.
  pose proof Ht as [H1 H2 H3 H4 H5 H6 H7 H8].
  assert (Hmain : gen st ≠ GDone → main st = MConsume).
  { intros Hne. destruct (gen st); destruct_and?; done. }
  destruct ev as [|j o|j|]; cbn [Pmap.step] in Hstep.
  - unfold step_gen, gen_deliverable in Hstep. rewrite ?finish_tasks_eq in Hstep.
    destruct (gen st) as [i|i f|s|exc s|] eqn:Hg; try done.
    all: rewrite Hmain in E4 by done.
    all: try rewrite E3 in Hstep.
    all: break_step Hstep; split; unfold_st; rewrite ?Hg, ?Hmain by done.
    all: try done.
    all: try by (intros Hi intr Hintr; apply E2; congruence).
    all: try by (split; [done|apply E2; congruence]).
    all: try by (intros _; apply E1; congruence).
    + left. destruct_and?. done.
    + destruct_and?. right. eexists. split; [done|]. by rewrite exc_value_reraise.
  - unfold step_finish in Hstep. rewrite slot_release_first in Hstep.
    break_step Hstep. bool_hyps.
    assert (Hin : worker j ∈ gen_tasks st) by (by apply H4).
    assert (Hne : gen st ≠ GDone).
    { intros Hg. rewrite Hg in H6. rewrite H6 in Hin. set_solver. }
    rewrite Hmain in E4 by done.
    split; unfold_st; rewrite ?Hmain by done; try done.
    + intros Hi intr. destruct o as [v|e]; [by apply E2|].
      destruct (gen_pending st) as [p|] eqn:Hp; simpl; [by apply E2|].
      intros Heq; inversion Heq; subst; clear Heq. simpl.
      rewrite (not_interrupted st j (E1 Hi)) in H0. simpl in H0. bool_hyps.
      destruct (xs !! j) as [x|] eqn:Hx; [|done]. simpl in H0.
      exists j, x. split; [done|]. congruence.
    + destruct (gen st); try done.
  - unfold step_abort in Hstep. break_step Hstep. bool_hyps.
    assert (Hin : worker j ∈ gen_tasks st) by (by apply H4).
    assert (Hne : gen st ≠ GDone).
    { intros Hg. rewrite Hg in H6. rewrite H6 in Hin. set_solver. }
    assert (Hni : gen_interruptible st = false).
    { destruct (gen_interruptible st) eqn:Hi; [|done].
      by rewrite (not_interrupted st j (E1 eq_refl)) in *. }
    rewrite Hmain in E4 by done.
    split; unfold_st; rewrite ?Hmain by done; try done.
    + intros Hi. congruence.
    + destruct (gen st); try done; congruence.
  - unfold step_main, __anext__ in Hstep. rewrite ?finish_tasks_eq in Hstep.
    destruct (main st) as [|s|exc s|lr|r] eqn:Hm; try done.
    + destruct (items (collector st)) as [|[i v] rest] eqn:Hit.
      * destruct (finished (collector st)) as [[e|]|] eqn:Hfin; [| |done].
        all: destruct (gen st) eqn:Hg; destruct_and?; try congruence.
        -- (* the collector raises *)
           destruct E3 as [(? & _)|(e' & He' & Hr & Hi)]; [congruence|].
           assert (e' = e) as -> by congruence.
           break_step Hstep. split; unfold_st; rewrite ?Hg, ?Hfin; try done.
           ++ intros Hi'. congruence.
           ++ right. eauto.
           ++ eauto.
        -- (* the collector is exhausted *)
           destruct E3 as [(_ & Hi & Hp & Hsp)|(e' & He' & _)]; [|congruence].
           destruct (all_yielded st Ht (Hd (conj Hi Hp)) Hg Hsp Hit) as [Hb _].
           rewrite Hb, drain_empty in Hstep.
           break_step Hstep. split; unfold_st; rewrite ?Hg, ?Hfin; try done.
           left. done.
      * break_step Hstep. split; unfold_st; try done.
    + break_step Hstep. split; unfold_st; try done.
      by case_bool_decide.
    + break_step Hstep. split; unfold_st; try done.
      case_bool_decide; [|done]. destruct E4 as (e & -> & He). done.
Qed.

Lemma data_ok_step (st st' : state U) (ev : event U) :
  inv_tasks st → inv_err st → data_ok st → normal st' →
  step st ev = Some st' → data_ok st'.
Proof.
  intros Ht He Hd Hn' Hstep.
  pose proof (normal_step _ _ _ Ht Hstep Hn') as [Hi Hp].
  pose proof Ht as [H1 H2 H3 H4 H5 H6 H7 H8].
  pose proof He as [E1 E2 E3 E4].
  pose proof Hd as [D1 D2 D3 D4 D5 D6 D7 D8 D9].
  assert (Hmain : gen st ≠ GDone → main st = MConsume).
  { intros Hne. destruct (gen st); destruct_and?; done. }
  assert (Hspawn : ∀ i w, gen st ≠ GDone → spawned st = i → data_ok (spawn_worker i w st)).
  { intros i w Hne <-. split; unfold_st; rewrite ?Hmain by done; try done.
    - intros j v Hj. destruct (D2 j v Hj) as (? & ? & ?). split_and!; [done..|lia].
    - intros j v Hj. destruct (D3 j v Hj) as (? & ? & ? & ?). split_and!; [done..|lia|done].
    - intros j [Hj%elem_of_singleton|Hj]%elem_of_union; [|by apply D5].
      apply worker_inj in Hj as ->. split_and!; [done| |].
      + destruct (buffer st !! spawned st) as [v|] eqn:Hb; [|done].
        destruct (D2 _ _ Hb) as (_ & _ & ?). lia.
      + intros ([j v] & Hj & Hin)%list_elem_of_fmap. simpl in Hj. subst j.
        destruct (D3 _ _ Hin) as (_ & _ & ? & _). lia.
    - intros j Hj. destruct (decide (j = spawned st)) as [->|Hne'].
      + left. set_solver.
      + destruct (D6 j) as [?|?]; [lia| |by right]. left. set_solver.
    - lia. }
  destruct ev as [|j o|j|]; cbn [Pmap.step] in Hstep.
  - unfold step_gen, gen_deliverable in Hstep. rewrite ?finish_tasks_eq in Hstep.
    destruct (gen st) as [i|i f|s|exc s|] eqn:Hg; try done.
    all: rewrite ?Hi, ?Hp in Hstep.
    + break_step Hstep; [by apply Hspawn| |]; split; unfold_st; rewrite ?Hmain by done; done.
    + break_step Hstep. destruct_and?. by apply Hspawn.
    + break_step Hstep; split; unfold_st; rewrite ?Hmain by done; try done.
      * intros j Hj. apply D5. set_solver.
      * intros j Hj. destruct (D6 j Hj) as [Ha|?]; [|by right]. left.
        apply elem_of_difference. split; [done|]. intros ?%elem_of_singleton.
        by eapply worker_not_gen.
    + destruct Hn' as [Hn' _]. break_step Hstep; unfold_st; try done.
      destruct E3. congruence.
  - unfold step_finish in Hstep. rewrite slot_release_first in Hstep.
    break_step Hstep. bool_hyps.
    assert (Hin : worker j ∈ gen_tasks st) by (by apply H4).
    assert (Hne : gen st ≠ GDone).
    { intros Hg. rewrite Hg in H6. rewrite H6 in Hin. set_solver. }
    destruct Hn' as [_ Hn']. unfold_st.
    destruct o as [v|e]; [|by rewrite Hp in Hn'].
    rewrite (not_interrupted st j (E1 Hi)) in H0. simpl in H0. bool_hyps.
    destruct (xs !! j) as [x|] eqn:Hx; [|done]. simpl in H0.
    assert (Hy : yields func xs j v) by (exists x; split; [done|congruence]).
    destruct (D5 j H) as (Hle & Hb & Hni).
    assert (Hlt : (j < spawned st)%nat).
    { destruct (H3 _ Hin) as [(k & Hk & Heq) _]. apply worker_inj in Heq. by subst. }
    split; unfold_st; rewrite ?Hmain by done; try done.
    + intros k w [Hk|Hk]%elem_of_app; [by apply D3|].
      apply list_elem_of_singleton in Hk. inversion Hk; subst. done.
    + rewrite fmap_app. simpl. apply NoDup_app. split; [done|]. split.
      * intros k Hk ->%list_elem_of_singleton. done.
      * apply NoDup_singleton.
    + intros k [Hk Hkj]%elem_of_difference. destruct (D5 k Hk) as (? & ? & ?).
      split_and!; [done..|]. rewrite fmap_app. simpl.
      intros [? | ->%list_elem_of_singleton]%elem_of_app; [done|]. set_solver.
    + intros k Hk. rewrite fmap_app. simpl.
      destruct (decide (k = j)) as [->|Hkj].
      * right. right. right. set_solver.
      * destruct (D6 k Hk) as [Ha|[?|[?|?]]]; [left|by right; left|by right; right; left|].
        -- apply elem_of_difference. split; [done|]. intros ?%elem_of_singleton.
           by apply Hkj, worker_inj.
        -- right. right. right. set_solver.
  - unfold step_abort in Hstep. break_step Hstep. bool_hyps.
    by rewrite (not_interrupted st j (E1 Hi)) in *.
  - unfold step_main, __anext__ in Hstep. rewrite ?finish_tasks_eq in Hstep.
    destruct (main st) as [|s|exc s|lr|r] eqn:Hm; try done.
    + destruct (items (collector st)) as [|[i v] rest] eqn:Hit.
      * destruct (finished (collector st)) as [[e|]|] eqn:Hfin; [| |done].
        -- exfalso. destruct (gen st); destruct_and?; try congruence.
           destruct E3 as [(? & _)|(e' & _ & _ & ?)]; congruence.
        -- assert (Hg : gen st = GDone).
           { destruct (gen st); destruct_and?; congruence. }
           rewrite Hg in E3. destruct E3 as [(_ & _ & _ & Hsp)|(e' & He' & _)]; [|congruence].
           destruct (all_yielded st Ht Hd Hg Hsp Hit) as [Hb Hle].
           rewrite Hb, drain_empty in Hstep. break_step Hstep.
           split; unfold_st; try done.
           all: try rewrite Hit; try rewrite <- Hb; try done.
           by rewrite D1, take_ge.
      * (* an item arrives *)
        destruct (D3 i v) as (Hy & Hle & Hlt & Hb); [apply list_elem_of_here|].
        simpl in D4. apply NoDup_cons in D4 as [Hni Hnd].
        set (b := <[i := v]> (buffer st)) in *.
        assert (Hby : ∀ j w, b !! j = Some w → yields func xs j w ∧ (next_idx st ≤ j)%nat
                                                ∧ (j < spawned st)%nat).
        { intros j w Hj. unfold b in Hj. apply lookup_insert_Some in Hj as [[<- <-]|[_ Hj]].
          - done.
          - by apply D2. }
        destruct (flush_spec func xs (size b) b (next_idx st) (out st))
          as (b' & n' & o' & Hf & F1 & F2 & F3 & F4 & F5); [done|naive_solver|done|].
        rewrite Hf in Hstep. inversion Hstep; subst st'; clear Hstep.
        assert (Hpass : ∀ j, (next_idx st ≤ j)%nat → b !! j = None → (n' ≤ j)%nat).
        { intros j Hj Hnone. destruct (decide (n' ≤ j)%nat); [done|].
          destruct (F3 j) as [w Hw]; [lia|congruence]. }
        assert (Hother : ∀ j, j ≠ i → b !! j = buffer st !! j).
        { intros j Hne. unfold b. by rewrite lookup_insert_ne. }
        split; unfold_st; try done.
        -- intros j w Hj. rewrite F2 in Hj. case_decide; [done|].
           destruct (Hby j w Hj) as (? & ? & ?). split_and!; [done|lia|done].
        -- intros j w Hj.
           destruct (D3 j w) as (? & ? & ? & Hbj); [by apply list_elem_of_further|].
           assert (j ≠ i).
           { intros ->. apply Hni. apply list_elem_of_fmap. by exists (i, w). }
           assert (b !! j = None) by (by rewrite Hother).
           split_and!; [done|by apply Hpass|done|].
           rewrite F2. by case_decide.
        -- intros j Hj. destruct (D5 j Hj) as (? & Hbj & Hnj).
           simpl in Hnj.
           assert (j ≠ i) by set_solver.
           assert (b !! j = None) by (by rewrite Hother).
           split_and!; [by apply Hpass| |set_solver].
           rewrite F2. by case_decide.
        -- intros j Hj.
           assert (Hkey : is_Some (b !! j) → (j < n')%nat ∨ is_Some (b' !! j)).
           { intros [w Hw]. destruct (decide (j < n')%nat); [by left|right].
             rewrite F2. rewrite decide_False by lia. by eexists. }
           destruct (D6 j Hj) as [?|[?|[Hs|Hitm]]].
           ++ by left.
           ++ right. left. lia.
           ++ destruct (decide (j = i)) as [->|Hne].
              ** by rewrite Hb in Hs; destruct Hs.
              ** right. rewrite <- Hother in Hs by done.
                 destruct (Hkey Hs); [by left|by right; left].
           ++ simpl in Hitm.
              apply elem_of_cons in Hitm as [->|?]; [|by right; right; right].
              right. destruct Hkey; [|by left|by right; left].
              unfold b. rewrite lookup_insert_eq. by eexists.
        -- destruct (decide (n' ≤ spawned st)%nat) as [|Hgt]; [done|].
           destruct (F3 (spawned st)) as [w Hw]; [lia|].
           destruct (Hby _ _ Hw) as (_ & _ & ?). lia.
    + break_step Hstep. split; unfold_st; try done.
      case_bool_decide; done.
    + break_step Hstep. split; unfold_st; try done.
      case_bool_decide; done.
Qed.

End PmapErrors.

Section PmapRuns.

Import Pmap.

Context {X U : Type} `{!EqDecision U}.
Variable func : X → outcome U.
Variable xs : list X.
Variable limit : option Z.

Local Abbreviation step := (step func xs).
Local Abbreviation exec := (exec func xs).
Local Abbreviation init := (init (U := U) limit).
Local Abbreviation inv := (inv func xs limit).
Local Abbreviation steps_left := (steps_left xs).

Lemma pmap_inv_init : inv init.
Proof.
  split.
  - split; unfold Pmap.init; unfold_st; try done; try set_solver; try lia.
  - split; unfold Pmap.init; unfold_st; simpl; try done.
    intros f [Hf|Hf]; set_solver.
  - split; unfold Pmap.init; unfold_st; try done.
  - intros _. split; unfold Pmap.init; unfold_st; try done; try set_solver; try lia.
  constructor.
Qed.

Lemma pmap_inv_step (st st' : state U) (ev : event U) :
  inv st → step st ev = Some st' → inv st'.
Proof.
  intros [Ht Hl He Hd] Hstep. split.
  - by eapply inv_tasks_step.
  - by eapply inv_lim_step.
  - by eapply inv_err_step.
  - intros Hn'. eapply data_ok_step; [done..| |done|done].
    apply Hd. by eapply normal_step.
Qed.

Lemma pmap_exec_inv (evs : list (event U)) (st st' : state U) :
  inv st → exec st evs = Some st' → inv st'.
Proof.
  revert st. induction evs as [|ev evs IH]; intros st Hinv Hex; simpl in Hex.
  - by inversion Hex; subst.
  - destruct (step st ev) as [st1|] eqn:Hst; [|done].
    eapply IH; [|exact Hex]. by eapply pmap_inv_step.
Qed.

Lemma no_worker_when_empty (st : state U) :
  Pmap.inv_tasks xs st → gen_tasks st = ∅ → no_worker_active st.
Proof.
  intros [H1 H2 H3 H4 H5 H6 H7 H8] Hemp j Hj. apply H4 in Hj. rewrite Hemp in Hj. set_solver.
Qed.

Lemma any_ready_no_worker (st : state U) (s : gset nat) :
  (∀ t, t ∈ s → is_worker st t) → no_worker_active st →
  Scope.any_ready s (active_tasks st) = true.
Proof.
  intros Hs Hnone. unfold Scope.any_ready.
  destruct (decide (s = ∅)) as [->|Hne].
  - by rewrite bool_decide_eq_true_2.
  - rewrite (bool_decide_eq_true_2 (¬ s ⊆ active_tasks st)); [by rewrite orb_true_r|].
    apply set_choose_L in Hne as [t Ht]. intros Hsub.
    destruct (Hs t Ht) as (j & _ & ->). by apply (Hnone j), Hsub.
Qed.


Lemma size_add (A : gset nat) (t : nat) : t ∉ A → size ({[t]} ∪ A) = S (size A).
Proof. intros Hn. rewrite size_union by set_solver. by rewrite size_singleton. Qed.

Lemma size_remove (A : gset nat) (t : nat) :
  t ∈ A → S (size (A ∖ {[t]})) = size A.
Proof.
  intros Hin. rewrite size_difference by set_solver. rewrite size_singleton.
  assert (size A ≠ 0%nat); [|lia].
  intros Hz. apply size_empty_inv in Hz. set_solver.
Qed.

Lemma size_done_grows (s A : gset nat) (t : nat) :
  (size (s ∖ (A ∖ {[t]})) ≤ S (size (s ∖ A)))%nat.
Proof.
  transitivity (size ({[t]} ∪ s ∖ A)).
  - apply subseteq_size. intros x. destruct (decide (x = t)); set_solver.
  - rewrite size_union_alt, size_singleton.
    assert (size (s ∖ A ∖ {[t]}) ≤ size (s ∖ A))%nat; [|lia].
    apply subseteq_size. set_solver.
Qed.

Lemma size_done_fresh (ts A : gset nat) : size ((ts ∩ A) ∖ A) = 0%nat.
Proof. replace ((ts ∩ A) ∖ A) with (∅ : gset nat) by set_solver. apply size_empty. Qed.

Lemma size_done_pos (s A : gset nat) : ¬ s ⊆ A → (1 ≤ size (s ∖ A))%nat.
Proof.
  intros Hns. destruct (size (s ∖ A)) eqn:Hz; [|lia].
  apply size_empty_inv in Hz. exfalso. apply Hns. intros x Hx.
  destruct (decide (x ∈ A)); [done|]. set_solver.
Qed.

(** Every advance uses up some of the steps that are left. *)
Lemma steps_left_step (st st' : state U) (ev : event U) :
  inv st → step st ev = Some st' → (steps_left st' < steps_left st)%nat.
Proof.
  intros [Ht Hl He Hd] Hstep.
  pose proof Ht as [H1 H2 H3 H4 H5 H6 H7 H8].
  pose proof He as [E1 E2 E3 E4].
  destruct (fresh_worker xs st Ht) as [_ Hfresh].
  assert (Hdone : gen_interruptible st = true →
                  size (gen_tasks st ∖ active_tasks st) = 0%nat).
  { intros Hi. pose proof (gen_tasks_active xs st Ht (E1 Hi)) as Hga.
    replace (gen_tasks st ∖ active_tasks st) with (∅ : gset nat) by set_solver.
    apply size_empty. }
  assert (Hwait : ∀ s, gen_tasks st ⊆ s → gen_tasks st ∩ active_tasks st ≠ ∅ →
                       Scope.any_ready s (active_tasks st) = true →
                       (1 ≤ size (s ∖ active_tasks st))%nat).
  { intros s Hsub Hne Hready. apply size_done_pos. intros Hsa.
    unfold Scope.any_ready in Hready.
    apply orb_true_iff in Hready as [Hb|Hb]; apply bool_decide_eq_true_1 in Hb.
    - apply Hne. set_solver.
    - done. }
  unfold Pmap.steps_left, gen_rank, main_rank.
  destruct ev as [|j o|j|]; cbn [Pmap.step] in Hstep.
  - unfold step_gen in Hstep. rewrite ?finish_tasks_eq in Hstep.
    destruct (gen st) as [i|i f|s|exc s|] eqn:Hg; try done.
    + subst i. break_step Hstep; unfold_st; list_bounds.
      * rewrite size_add by done. lia.
      * lia.
      * rewrite Hdone by done. lia.
    + destruct H6 as [<- Hlt]. break_step Hstep; unfold_st.
      * rewrite Hdone by done. lia.
      * rewrite size_add by done. lia.
    + destruct H7 as (Hgen & _). destruct H6 as (Hs & Hsub & _).
      break_step Hstep; unfold_st.
      * rewrite Hdone by done. lia.
      * pose proof (size_remove _ _ Hgen). lia.
      * rewrite size_done_fresh.
        apply bool_decide_eq_false_1 in Heqb0.
        pose proof (Hwait s Hsub Heqb0 Heqb). lia.
    + destruct H7 as (Hgen & _). destruct H6 as (Hs & Hsub).
      break_step Hstep; unfold_st.
      * pose proof (size_remove _ _ Hgen). lia.
      * rewrite size_done_fresh.
        apply bool_decide_eq_false_1 in Heqb0.
        pose proof (Hwait s Hsub Heqb0 Heqb). lia.
  - unfold step_finish in Hstep. rewrite slot_release_first in Hstep.
    break_step Hstep. bool_hyps. unfold_st.
    pose proof (size_remove _ _ H).
    assert (length (items (match o with
                           | Value value => add j value (collector st)
                           | Error _ => collector st
                           end)) ≤ S (length (items (collector st))))%nat.
    { destruct o; unfold_st; rewrite ?length_app; simpl; lia. }
    destruct (gen st) as [i|i f|s|exc s|]; try lia.
    + pose proof (size_done_grows s (active_tasks st) (worker j)). lia.
    + pose proof (size_done_grows s (active_tasks st) (worker j)). lia.
  - unfold step_abort in Hstep. break_step Hstep. bool_hyps. unfold_st.
    pose proof (size_remove _ _ H).
    destruct (gen st) as [i|i f|s|exc s|]; try lia.
    + pose proof (size_done_grows s (active_tasks st) (worker j)). lia.
    + pose proof (size_done_grows s (active_tasks st) (worker j)). lia.
  - unfold step_main, __anext__ in Hstep. rewrite ?finish_tasks_eq in Hstep.
    destruct (main st) as [|s|exc s|lr|r] eqn:Hm; try done.
    + destruct (items (collector st)) as [|[i v] rest] eqn:Hit.
      * destruct (finished (collector st)) as [[e|]|] eqn:Hfin; [| |done].
        all: break_step Hstep; unfold_st; rewrite ?Hit; simpl; lia.
      * break_step Hstep; unfold_st. simpl. lia.
    + assert (Ho : outer_tasks st = ∅) by (destruct (gen st); destruct_and?; congruence).
      rewrite Ho, empty_inter in Hstep. rewrite bool_decide_eq_true_2 in Hstep by done.
      break_step Hstep; unfold_st. lia.
    + assert (Ho : outer_tasks st = ∅) by (destruct (gen st); destruct_and?; congruence).
      rewrite Ho, empty_inter in Hstep. rewrite bool_decide_eq_true_2 in Hstep by done.
      break_step Hstep; unfold_st. lia.
Qed.

Lemma exec_cons_step (st st1 : state U) (ev : event U) (evs : list (event U)) :
  step st ev = Some st1 → exec st (ev :: evs) = exec st1 evs.
Proof. intros Hst. cbn [Pmap.exec]. by rewrite Hst. Qed.




Lemma final_gen_done (st : state U) :
  inv st → final st = true → gen st = GDone ∧ no_worker_active st.
Proof.
  intros [Ht Hl He Hd] Hfin. pose proof Ht as [H1 H2 H3 H4 H5 H6 H7 H8].
  assert (Hg : gen st = GDone).
  { unfold final in Hfin. destruct (gen st); destruct_and?; try done.
    all: match goal with H : main _ = MConsume |- _ => by rewrite H in Hfin end. }
  split; [done|]. apply no_worker_when_empty; [done|]. by rewrite Hg in H6.
Qed.

Lemma returned_values (st : state U) (l : list U) :
  inv st → main st = MReturned l → Value <$> l = func <$> xs.
Proof.
  intros Hinv Hm. destruct (final_gen_done st Hinv) as [Hg _].
  { unfold final. by rewrite Hm. }
  destruct Hinv as [Ht Hl [E1 E2 E3 E4] Hd]. rewrite Hm in E4. rewrite Hg in E3.
  destruct E3 as [(_ & Hi & Hp & _)|(e & He & _)]; [|congruence].
  destruct (Hd (conj Hi Hp)) as [D1 D2 D3 D4 D5 D6 D7 D8 D9]. by rewrite Hm in D9.
Qed.

Lemma raised_error (st : state U) (r : Scope.raised) :
  inv st → main st = MRaised r → raised_by_func func xs (Scope.exc_value r).
Proof. intros [Ht Hl [E1 E2 E3 E4] Hd] Hm. by rewrite Hm in E4. Qed.

End PmapRuns.









(** * Further properties *)

(** ** new_scope *)

Section ScopeMore.

Import Scope.


Lemma fresh_step (st st' : state) (ev : event) :
  (∀ t, t ∈ spawned st → (t < next_task st)%nat) →
  step st ev = Some st' →
  ∀ t, t ∈ spawned st' → (t < next_task st')%nat.
Proof.
  intros Hf Hstep. unfold step, deliverable, running in Hstep.
  destruct ev as [|task|task e|task| |e|];
    destruct (at_phase st) as [|s|exc s| |r] eqn:Hph; simpl in Hstep; try done;
    repeat match type of Hstep with
           | (if ?c then _ else _) = Some _ => destruct c eqn:?; try done
           | match ?c with _ => _ end = Some _ => destruct c eqn:?; try done
           end;
    simpl in Hstep; inversion Hstep; subst; clear Hstep;
    unfold except_clause, set_phase, spawn, _run_finally, aborted;
    cbn [spawned next_task]; try done;
    intros t [->%elem_of_singleton|Ht%Hf]%elem_of_union; lia.
Qed.

(** In the except clause and after it, nothing is posted any more, and
    no task is taken out of [spawned]. *)
Lemma cleanup_step (st st' : state) (ev : event) (p : list (nat * interrupt)) (t : nat) :
  (running st = true → ∃ exc s, at_phase st = Cleanup exc s) ∧ at_phase st ≠ Exited
    ∧ posted st = p ∧ t ∈ spawned st →
  step st ev = Some st' →
  (running st' = true → ∃ exc s, at_phase st' = Cleanup exc s) ∧ at_phase st' ≠ Exited
    ∧ posted st' = p ∧ t ∈ spawned st'.
Proof.
  intros (Hc & Hne & Hp & Hs) Hstep. unfold step, deliverable in Hstep.
  destruct (running st) eqn:Hrun.
  - destruct (Hc eq_refl) as (exc & s & Hph). rewrite Hph in Hstep.
    destruct ev as [|task|task e|task| |e|]; simpl in Hstep; try done;
      repeat match type of Hstep with
             | (if ?c then _ else _) = Some _ => destruct c eqn:?; try done
             | match ?c with _ => _ end = Some _ => destruct c eqn:?; try done
             end;
      simpl in Hstep; inversion Hstep; subst; clear Hstep;
      unfold except_clause, set_phase, spawn, _run_finally, aborted, running;
      cbn [at_phase posted spawned]; rewrite ?Hph;
      (split; [|split; [|split]]); try done; try (by eauto); try set_solver;
      repeat case_bool_decide; try done; eauto.
  - unfold running in Hrun.
    destruct ev as [|task|task e|task| |e|];
      destruct (at_phase st) as [|s|exc s| |r] eqn:Hph; simpl in Hstep; try done;
      unfold running in Hstep; rewrite Hph in Hstep; done.
Qed.


End ScopeMore.







(** X4.  A task that is spawned while the scope is in its except clause
    is never interrupted by the scope (the loop over [tasks] has run by
    then), and the scope is still not left before that task is done. *)
Theorem task_spawned_in_cleanup_not_interrupted
    (evs evs' : list Scope.event) (st st1 st2 : Scope.state)
    (exc : Scope.caught) (s : gset nat) :
  Scope.exec Scope.init evs = Some st →
  Scope.at_phase st = Scope.Cleanup exc s →
  Scope.step st Scope.Spawn = Some st1 →
  Scope.exec st1 evs' = Some st2 →
  Scope.next_task st ∈ Scope.spawned st2
  ∧ (Scope.next_task st ∉ (Scope.posted st2).*1)
  ∧ (scope_left st2 → Scope.next_task st ∉ Scope.active_tasks st2).
Proof.
  intros Hex Hph Hsp Hex'.
  pose proof (inv_reachable evs st Hex) as [Hinv _].
  assert (Hfresh : ∀ t, t ∈ Scope.spawned st → (t < Scope.next_task st)%nat).
  { refine (exec_invariant
              (fun st => ∀ t, t ∈ Scope.spawned st → (t < Scope.next_task st)%nat)
              _ evs Scope.init st _ Hex);
      [intros ? ? ? ? ?; by eapply fresh_step|].
    intros t Ht. cbn in Ht. set_solver. }
  pose proof (inv_step _ _ _ Hinv Hsp) as Hinv1.
  assert (Hinv2 : Scope.inv st2).
  { eapply (exec_invariant Scope.inv); [intros; by eapply inv_step|exact Hinv1|exact Hex']. }
  assert (Hst1 : st1 = Scope.spawn st).
  { unfold Scope.step, Scope.running in Hsp. rewrite Hph in Hsp. by inversion Hsp. }
  assert (Hkeep : (Scope.running st2 = true → ∃ exc s, Scope.at_phase st2 = Scope.Cleanup exc s)
                  ∧ Scope.at_phase st2 ≠ Scope.Exited
                  ∧ Scope.posted st2 = Scope.posted st
                  ∧ Scope.next_task st ∈ Scope.spawned st2).
  { eapply (exec_invariant
              (fun st0 => (Scope.running st0 = true → ∃ exc s, Scope.at_phase st0 = Scope.Cleanup exc s)
                          ∧ Scope.at_phase st0 ≠ Scope.Exited
                          ∧ Scope.posted st0 = Scope.posted st
                          ∧ Scope.next_task st ∈ Scope.spawned st0));
      [intros ? ? ? ? ?; by eapply cleanup_step| |exact Hex'].
    subst st1. unfold Scope.spawn. cbn [Scope.at_phase Scope.posted Scope.spawned].
    rewrite Hph. split; [eauto|]. split; [done|]. split; [done|]. set_solver. }
  destruct Hkeep as (_ & _ & Hp & Hs). split; [done|]. split.
  - rewrite Hp. intros ([t i] & Heq & Hin)%list_elem_of_fmap. simpl in Heq. subst t.
    destruct Hinv as [H1 H2 H3 H4 H5 H6 H7]. destruct (H6 _ _ Hin) as [_ Hin'].
    apply Hfresh in Hin'. lia.
  - intros Hleft Hact. destruct Hinv2 as [H1 H2 H3 H4 H5 H6 H7].
    rewrite (H3 Hleft) in H2. set_solver.
Qed.

Lemma task_spawned_in_cleanup_not_interrupted_witness :
  ∃ st st1 st2,
    Scope.exec Scope.init [Scope.Spawn; Scope.BodyRaise (ValueError "oops!")] = Some st
    ∧ Scope.step st Scope.Spawn = Some st1
    ∧ Scope.exec st1 [Scope.ChildAbort 1; Scope.Advance; Scope.ChildReturn 2; Scope.Advance]
      = Some st2
    ∧ Scope.posted st2 = [(1%nat, Scope.Interrupt 0 (RuntimeError "scope exited"))]
    ∧ Scope.next_task st = 2%nat
    ∧ (Scope.next_task st ∈ Scope.spawned st2
       ∧ (Scope.next_task st ∉ (Scope.posted st2).*1)
       ∧ (scope_left st2 → Scope.next_task st ∉ Scope.active_tasks st2)).
Proof.
  eexists. eexists. eexists.
  split; [vm_compute; reflexivity|]. split; [vm_compute; reflexivity|].
  split; [vm_compute; reflexivity|]. split; [vm_compute; reflexivity|].
  split; [reflexivity|].
  eapply (task_spawned_in_cleanup_not_interrupted
            [Scope.Spawn; Scope.BodyRaise (ValueError "oops!")]
            [Scope.ChildAbort 1; Scope.Advance; Scope.ChildReturn 2; Scope.Advance]).
  - vm_compute. reflexivity.
  - reflexivity.
  - vm_compute. reflexivity.
  - vm_compute. reflexivity.
Defined.



(** ** Limiter *)

Section LimiterMore.

Import Limiter.

Lemma available_waiters_resolved (w : world) (f : fut) :
  f ∈ available_waiters w.1 ∨ f ∈ resolved w.2 → f ∈ resolved (_release w).2.
Proof.
  intros Hf. rewrite release_resolved. destruct w as [l fs]. simpl in *.
  destruct (waiters l); set_solver.
Qed.

End LimiterMore.

(** X6.  [async with limiter] on a limiter that is available and on which
    nobody waits is a round trip: [__aenter__] goes through without
    suspending and takes one slot, and [__aexit__], which calls
    [_release], gives the limiter back as it was, futures included. *)
Theorem limiter_enter_exit_round_trip (l : Limiter.t) (fs : futures) :
  Limiter.is_available l = true →
  Limiter.waiters l = [] →
  Limiter.available_waiters l = [] →
  let '(e, w) := Limiter.__aenter__ (l, fs) in
  e = Limiter.Entered
  ∧ Limiter.count w.1 = Limiter.count l + 1
  ∧ Limiter._release w = (l, fs).
Proof.
  intros Hav Hw Ha. unfold Limiter.__aenter__. rewrite Hav.
  split; [done|]. split; [done|].
  unfold Limiter._release. cbn [Limiter.waiters Limiter.available_waiters
    Limiter.capacity Limiter.count]. rewrite Hw, Ha. simpl.
  destruct l as [c n ws aws]. simpl in *. subst.
  f_equal. f_equal. lia.
Qed.

Lemma limiter_enter_exit_round_trip_witness :
  Limiter._release (Limiter.__aenter__ (Limiter.mk (Some 2) 1 [] [], mkFutures 3%nat {[1%nat]})).2
  = (Limiter.mk (Some 2) 1 [] [], mkFutures 3%nat {[1%nat]}).
Proof.
  pose proof (limiter_enter_exit_round_trip
                (Limiter.mk (Some 2) 1 [] []) (mkFutures 3%nat {[1%nat]})
                eq_refl eq_refl eq_refl) as H.
  simpl in H. destruct H as (_ & _ & H). exact H.
Defined.

(** X7.  [available] is a gate, not a slot: it makes a fresh future and
    leaves the capacity, the count and the queue of [acquire] as they
    are; the future is set at once exactly when the limiter is available,
    and in any case it is set by the next release, whether or not the
    limiter is available after that release. *)
Theorem available_waits_without_a_slot (l : Limiter.t) (fs : futures) :
  (∀ g, g ∈ resolved fs → (g < next_fut fs)%nat) →
  let '(f, w) := Limiter.available (l, fs) in
  (f ∉ resolved fs)
  ∧ Limiter.capacity w.1 = Limiter.capacity l
  ∧ Limiter.count w.1 = Limiter.count l
  ∧ Limiter.waiters w.1 = Limiter.waiters l
  ∧ (is_set f w.2 = Limiter.is_available l)
  ∧ f ∈ resolved (Limiter._release w).2.
Proof.
  intros Hwf. unfold Limiter.available, new_future.
  assert (Hfresh : next_fut fs ∉ resolved fs).
  { intros Hin. apply Hwf in Hin. lia. }
  destruct (Limiter.is_available l) eqn:Hav; cbn [fst snd].
  - split; [done|]. split; [done|]. split; [done|]. split; [done|]. split.
    + unfold is_set, try_set_result. simpl. apply bool_decide_eq_true_2. set_solver.
    + apply available_waiters_resolved. right. unfold try_set_result. simpl. set_solver.
  - split; [done|]. split; [done|]. split; [done|]. split; [done|]. split.
    + unfold is_set. simpl. by apply bool_decide_eq_false_2.
    + apply available_waiters_resolved. left. simpl. set_solver.
Qed.

Lemma available_waits_without_a_slot_witness :
  let '(f, w) := Limiter.available (Limiter.mk (Some 1) 3 [0%nat] [], mkFutures 1%nat ∅) in
  f = 1%nat
  ∧ Limiter.is_available (Limiter._release w).1 = false
  ∧ is_set f w.2 = false
  ∧ f ∈ resolved (Limiter._release w).2.
Proof.
  pose proof (available_waits_without_a_slot
                (Limiter.mk (Some 1) 3 [0%nat] []) (mkFutures 1%nat ∅)) as H.
  cbn in H. cbn.
  destruct H as (_ & _ & _ & _ & Hs & Hr).
  { intros g Hg. set_solver. }
  split; [reflexivity|]. split; [reflexivity|]. split; [exact Hs | exact Hr].
Defined.

Section LimiterTraceMore.

Import LimiterTrace.

Lemma aenter_next_fut (w : Limiter.world) :
  (next_fut w.2 ≤ next_fut (Limiter.__aenter__ w).2.2)%nat.
Proof.
  destruct w as [l fs]. unfold Limiter.__aenter__.
  destruct (Limiter.is_available l); simpl; lia.
Qed.

(** The books of an interleaving balance, whatever state it starts in. *)
Lemma accounting_exec (evs : list event) (st st' : state) :
  exec st evs = Some st' →
  (∀ f, f ∈ dom (suspended st) → (f < next_fut (lim st).2)%nat) →
  0 ≤ Limiter.count (lim st).1 →
  (Limiter.count (lim st').1 - Z.of_nat (length (admitted st')) + Z.of_nat (releases evs)
     = Limiter.count (lim st).1 - Z.of_nat (length (admitted st))
   ∧ 0 ≤ Limiter.count (lim st').1
   ∧ (length (admitted st') + size (suspended st') + arrivals st
      = length (admitted st) + size (suspended st) + arrivals st')%nat).
Proof.
  revert st. induction evs as [|e evs IH]; intros st Hex Hdom Hpos; simpl in Hex.
  - inversion Hex; subst. simpl. lia.
  - destruct (step st e) as [st1|] eqn:Hst; [|done].
    specialize (IH st1 Hex).
    destruct (lim st) as [l fs] eqn:Hlim. simpl in Hdom, Hpos.
    destruct e as [|f| |c]; cbn [step] in Hst.
    + rewrite Hlim in Hst. unfold Limiter.__aenter__ in Hst.
      destruct (Limiter.is_available l); simpl in Hst; inversion Hst; subst st1; clear Hst;
        simpl in IH; simpl.
      * destruct IH as (I1 & I2 & I3); [done|lia|].
        rewrite length_app in I1, I3. simpl in I1, I3. lia.
      * assert (Hnew : suspended st !! next_fut fs = None).
        { apply not_elem_of_dom. intros Hin. apply Hdom in Hin. lia. }
        destruct IH as (I1 & I2 & I3).
        { intros f [->%elem_of_singleton|Hf%Hdom]%dom_insert%elem_of_union; lia. }
        { done. }
        rewrite map_size_insert_None in I3 by done. lia.
    + destruct (suspended st !! f) as [i|] eqn:Hf; [|done].
      rewrite Hlim in Hst. destruct (is_set f (l, fs).2); [|done].
      inversion Hst; subst st1; clear Hst. simpl in IH; simpl.
      destruct IH as (I1 & I2 & I3).
      { intros g Hg%dom_delete. apply Hdom. set_solver. }
      { lia. }
      rewrite length_app in I1, I3. simpl in I1, I3.
      rewrite map_size_delete_Some in I3 by (by eexists).
      assert (size (suspended st) ≠ 0%nat).
      { intros Hz. apply map_size_empty_inv in Hz. by rewrite Hz in Hf. }
      lia.
    + rewrite Hlim in Hst. simpl in Hst. case_bool_decide; [|done].
      inversion Hst; subst st1; clear Hst. simpl in IH; simpl.
      rewrite (release_count (l, fs)), (release_next_fut (l, fs)) in IH. simpl in IH.
      destruct IH as (I1 & I2 & I3); [done|lia|]. lia.
    + inversion Hst; subst st1; clear Hst. simpl in IH; simpl.
      rewrite Hlim in IH. simpl in IH.
      destruct IH as (I1 & I2 & I3); [done|lia|]. lia.
Qed.

Lemma unbounded_exec (evs : list event) (st st' : state) :
  exec st evs = Some st' →
  keeps_capacity evs →
  Limiter.capacity (lim st).1 = None → Limiter.waiters (lim st).1 = [] →
  suspended st = ∅ → admitted st = seq 0 (arrivals st) →
  Limiter.capacity (lim st').1 = None ∧ Limiter.waiters (lim st').1 = []
  ∧ suspended st' = ∅ ∧ admitted st' = seq 0 (arrivals st').
Proof.
  revert st. induction evs as [|e evs IH]; intros st Hex Hk Hc Hw Hs Ha; simpl in Hex.
  - by inversion Hex; subst.
  - destruct (step st e) as [st1|] eqn:Hst; [|done].
    assert (Hk' : keeps_capacity evs).
    { intros c Hin. apply (Hk c). by apply list_elem_of_further. }
    apply (IH st1 Hex Hk'); clear IH Hex;
      destruct (lim st) as [l fs] eqn:Hlim; simpl in Hc, Hw;
      destruct e as [|f| |c]; cbn [step] in Hst;
      try (by exfalso; apply (Hk c), list_elem_of_here);
      try (by rewrite Hs, lookup_empty in Hst).
    all: rewrite Hlim in Hst; unfold Limiter.__aenter__, Limiter.is_available in Hst;
      rewrite ?Hc in Hst; simpl in Hst; try case_bool_decide; try done;
      inversion Hst; subst st1; clear Hst; simpl; try done.
    all: try (by rewrite (release_capacity (l, fs))).
    all: try (by rewrite (release_waiters (l, fs)); simpl; rewrite Hw).
    change (admitted st ++ [arrivals st] = seq 0 (S (arrivals st))).
    by rewrite Ha, seq_S.
Qed.

End LimiterTraceMore.

(** X8.  In every interleaving on one limiter the books balance: the
    count is the number of calls that got a slot minus the number of
    releases, it is never negative, and every acquire call that has
    arrived either got a slot or is suspended on its future. *)
Theorem limiter_count_is_holders
    (capacity : option Z) (evs : list LimiterTrace.event) (st : LimiterTrace.state) :
  LimiterTrace.exec (LimiterTrace.init capacity) evs = Some st →
  Limiter.count (LimiterTrace.lim st).1
  = Z.of_nat (length (LimiterTrace.admitted st)) - Z.of_nat (releases evs)
  ∧ 0 ≤ Limiter.count (LimiterTrace.lim st).1
  ∧ (length (LimiterTrace.admitted st) + size (LimiterTrace.suspended st)
     = LimiterTrace.arrivals st)%nat.
Proof.
  intros Hex. destruct (accounting_exec evs _ _ Hex) as (I1 & I2 & I3).
  - intros f Hf. simpl in Hf. set_solver.
  - simpl. lia.
  - simpl in I1, I3. rewrite map_size_empty in I3. lia.
Qed.

Lemma limiter_count_is_holders_witness :
  ∃ st, LimiterTrace.exec (LimiterTrace.init (Some 1))
          [LimiterTrace.Acquire; LimiterTrace.Acquire; LimiterTrace.Acquire;
           LimiterTrace.Release; LimiterTrace.Resume 0%nat] = Some st
    ∧ LimiterTrace.admitted st = [0; 1]%nat
    ∧ (Limiter.count (LimiterTrace.lim st).1
       = Z.of_nat (length (LimiterTrace.admitted st))
         - Z.of_nat (releases [LimiterTrace.Acquire; LimiterTrace.Acquire; LimiterTrace.Acquire;
                               LimiterTrace.Release; LimiterTrace.Resume 0%nat])
       ∧ 0 ≤ Limiter.count (LimiterTrace.lim st).1
       ∧ (length (LimiterTrace.admitted st) + size (LimiterTrace.suspended st)
          = LimiterTrace.arrivals st)%nat).
Proof.
  eexists. split; [vm_compute; reflexivity|]. split; [reflexivity|].
  apply (limiter_count_is_holders (Some 1)
           [LimiterTrace.Acquire; LimiterTrace.Acquire; LimiterTrace.Acquire;
            LimiterTrace.Release; LimiterTrace.Resume 0%nat]).
  vm_compute. reflexivity.
Defined.

(** X9.  A limiter made with capacity [None], whose capacity is not
    assigned to, never makes anyone wait: every acquire call gets its
    slot at once, so the calls are admitted in strict arrival order and
    the queue stays empty. *)
Theorem unbounded_limiter_never_queues
    (evs : list LimiterTrace.event) (st : LimiterTrace.state) :
  LimiterTrace.exec (LimiterTrace.init None) evs = Some st →
  keeps_capacity evs →
  Limiter.waiters (LimiterTrace.lim st).1 = []
  ∧ LimiterTrace.suspended st = ∅
  ∧ length (LimiterTrace.admitted st) = LimiterTrace.arrivals st
  ∧ LimiterTrace.strict_arrival_order st.
Proof.
  intros Hex Hk.
  destruct (unbounded_exec evs _ _ Hex Hk) as (_ & Hw & Hs & Ha); try done.
  split; [done|]. split; [done|].
  assert (Hlen : length (LimiterTrace.admitted st) = LimiterTrace.arrivals st).
  { by rewrite Ha, length_seq. }
  split; [done|]. unfold LimiterTrace.strict_arrival_order. by rewrite Hlen.
Qed.

Lemma unbounded_limiter_never_queues_witness :
  ∃ st, LimiterTrace.exec (LimiterTrace.init None)
          [LimiterTrace.Acquire; LimiterTrace.Acquire; LimiterTrace.Release;
           LimiterTrace.Acquire] = Some st
    ∧ LimiterTrace.admitted st = [0; 1; 2]%nat
    ∧ (Limiter.waiters (LimiterTrace.lim st).1 = []
       ∧ LimiterTrace.suspended st = ∅
       ∧ length (LimiterTrace.admitted st) = LimiterTrace.arrivals st
       ∧ LimiterTrace.strict_arrival_order st).
Proof.
  eexists. split; [vm_compute; reflexivity|]. split; [reflexivity|].
  apply (unbounded_limiter_never_queues
           [LimiterTrace.Acquire; LimiterTrace.Acquire; LimiterTrace.Release;
            LimiterTrace.Acquire]).
  - vm_compute. reflexivity.
  - intros c Hin. repeat (apply elem_of_cons in Hin as [Hin|Hin]; [discriminate Hin|]).
    by apply elem_of_nil in Hin.
Defined.

(** ** awaitable and awaitable_func *)

(** X10.  When [AwaitableFuture.wrap] returns awaitable objects,
    [awaitable] always returns an awaitable object, and applying it a
    second time changes nothing. *)
Theorem awaitable_idempotent {D : Type} (isfuture : pyobj D → bool)
    (wrap : pyobj D → pyobj D) (value : pyobj D) :
  (∀ v, isfuture v = true → isawaitable (wrap v) = true) →
  isawaitable (awaitable isfuture wrap value) = true
  ∧ awaitable isfuture wrap (awaitable isfuture wrap value) = awaitable isfuture wrap value.
Proof.
  intros Hwrap.
  assert (Ha : isawaitable (awaitable isfuture wrap value) = true).
  { unfold awaitable. destruct (isawaitable value) eqn:Hv; [done|].
    destruct (isfuture value) eqn:Hf; [by apply Hwrap|done]. }
  split; [done|]. unfold awaitable at 1. by rewrite Ha.
Qed.

Lemma awaitable_idempotent_witness :
  isawaitable
    (awaitable (D := Z) (fun o => match o with FutureObj _ => true | _ => false end)
       (fun o => match o with FutureObj f => AwaitableFutureObj f | _ => o end)
       (FutureObj 3%nat)) = true
  ∧ awaitable (D := Z) (fun o => match o with FutureObj _ => true | _ => false end)
      (fun o => match o with FutureObj f => AwaitableFutureObj f | _ => o end)
      (awaitable (fun o => match o with FutureObj _ => true | _ => false end)
         (fun o => match o with FutureObj f => AwaitableFutureObj f | _ => o end)
         (FutureObj 3%nat))
    = awaitable (fun o => match o with FutureObj _ => true | _ => false end)
        (fun o => match o with FutureObj f => AwaitableFutureObj f | _ => o end)
        (FutureObj 3%nat).
Proof.
  apply (awaitable_idempotent (D := Z)
           (fun o => match o with FutureObj _ => true | _ => false end)
           (fun o => match o with FutureObj f => AwaitableFutureObj f | _ => o end)
           (FutureObj 3%nat)).
  intros [d|f|f|c] Hv; try discriminate Hv. reflexivity.
Defined.

(** X11.  [awaitable_func] fails on generator functions and on nothing
    else; what it returns is a coroutine function with the name of its
    argument, which a second application returns as it is (no double
    wrapping).  The coroutine function made for a plain function calls
    it: an exception of the function is raised by the coroutine, a value
    that is neither awaitable nor a future is returned without
    suspending, and a coroutine object is run in place. *)
Theorem awaitable_func_wraps_once {A D : Type} (isfuture : pyobj D → bool)
    (wrap : pyobj D → pyobj D) (function : pyfunc A D) :
  ((∃ e, awaitable_func isfuture wrap function = inl e)
     ↔ ∃ name, function = GeneratorFunction name)
  ∧ (∀ g, awaitable_func isfuture wrap function = inr g →
       awaitable_func isfuture wrap g = inr g
       ∧ ∃ body, g = CoroutineFunction
                       (match function with
                        | CoroutineFunction name _ | GeneratorFunction name
                        | PlainFunction name _ => name
                        end) body)
  ∧ (∀ name body g args, function = PlainFunction name body →
       awaitable_func isfuture wrap function = inr g →
       ∃ c, call_coroutine g args = Some c
            ∧ match body args with
              | Error e => c = Raise e
              | Value (CoroutineObj c') => c = c'
              | Value v => isawaitable v = false → isfuture v = false → c = Return v
              end).
Proof.
  split; [|split].
  - destruct function as [name body|name|name body]; simpl; split.
    + by intros [e He].
    + by intros [n Hn].
    + eauto.
    + eauto.
    + by intros [e He].
    + by intros [n Hn].
  - intros g Hg. destruct function as [name body|name|name body]; simpl in Hg;
      inversion Hg; subst; simpl; eauto.
  - intros name body g args -> Hg. simpl in Hg. inversion Hg; subst; clear Hg.
    simpl. eexists. split; [done|].
    destruct (body args) as [v|e]; [|done].
    destruct v as [d|f|f|c']; try done.
    + intros _ Hf. unfold awaitable. simpl. by rewrite Hf.
    + intros _ Hf. unfold awaitable. simpl. by rewrite Hf.
Qed.

Lemma awaitable_func_wraps_once_witness :
  ∃ g, awaitable_func (A := Z * Z) (D := Z) (fun _ => false) (fun o => o)
         (PlainFunction "sync_func" (fun ab => Value (Plain (ab.1 + ab.2)))) = inr g
    ∧ awaitable_func (fun _ => false) (fun o => o) g = inr g
    ∧ call_coroutine g (1, 2) = Some (Return (Plain 3)).
Proof.
  pose proof (awaitable_func_wraps_once (A := Z * Z) (D := Z) (fun _ => false) (fun o => o)
                (PlainFunction "sync_func" (fun ab => Value (Plain (ab.1 + ab.2)))))
    as (_ & Hg & Hc).
  eexists. split; [reflexivity|]. split.
  - by destruct (Hg _ eq_refl) as [Hgg _].
  - destruct (Hc _ _ _ (1, 2) eq_refl eq_refl) as (c & Hcall & Hbody).
    simpl in Hbody. rewrite Hcall. f_equal. by apply Hbody.
Defined.

(** ** pmap *)

Section PmapMore.

Import Pmap.

Context {X U : Type} `{!EqDecision U}.
Variable func : X → outcome U.
Variable xs : list X.

Local Abbreviation step := (step func xs).
Local Abbreviation exec := (exec func xs).

Lemma workers_add (act : gset nat) (i : nat) :
  worker i ∉ act →
  Z.of_nat (size (({[worker i]} ∪ act) ∖ {[main_id; gen_id]}))
  = Z.of_nat (size (act ∖ {[main_id; gen_id]})) + 1.
Proof.
  intros Hn. pose proof (worker_not_main i). pose proof (worker_not_gen i).
  replace (({[worker i]} ∪ act) ∖ {[main_id; gen_id]})
    with ({[worker i]} ∪ act ∖ {[main_id; gen_id]}) by set_solver.
  apply size_add_worker. set_solver.
Qed.

Lemma workers_remove (act : gset nat) (i : nat) :
  worker i ∈ act →
  Z.of_nat (size ((act ∖ {[worker i]}) ∖ {[main_id; gen_id]}))
  = Z.of_nat (size (act ∖ {[main_id; gen_id]})) - 1.
Proof.
  intros Hin. pose proof (worker_not_main i). pose proof (worker_not_gen i).
  replace ((act ∖ {[worker i]}) ∖ {[main_id; gen_id]})
    with ((act ∖ {[main_id; gen_id]}) ∖ {[worker i]}) by set_solver.
  apply size_remove_worker. set_solver.
Qed.

Lemma workers_without_gen (act : gset nat) :
  (act ∖ {[gen_id]}) ∖ {[main_id; gen_id]} = act ∖ {[main_id; gen_id]}.
Proof. set_solver. Qed.

Lemma within_limit_step (k : Z) (st st' : state U) (ev : event U) :
  inv_tasks xs st → inv_lim (Some k) st → within_limit k st →
  step st ev = Some st' → within_limit k st'.
Proof.
  intros Ht [L1 L2 L3 L4 L5] (B1 & B2 & B3) Hstep.
  destruct (fresh_worker xs st Ht) as [_ Hfresh].
  pose proof Ht as [H1 H2 H3 H4 H5 H6 H7 H8].
  unfold within_limit, active_workers in *.
  destruct (lim st) as [l fs] eqn:Hlim. cbn [fst snd] in *.
  destruct ev as [|j o|j|]; cbn [Pmap.step] in Hstep.
  - unfold step_gen in Hstep. rewrite ?finish_tasks_eq in Hstep.
    destruct (gen st) as [i|i f|s|exc s|] eqn:Hg; try done.
    + subst i. destruct (xs !! spawned st); [|by break_step Hstep; unfold_st; rewrite ?Hlim].
      rewrite Hlim in Hstep. unfold Limiter.__aenter__, Limiter.is_available in Hstep.
      rewrite L1 in Hstep.
      destruct (bool_decide (Limiter.count l < k)) eqn:Hav; simpl in Hstep;
        inversion Hstep; subst; clear Hstep; unfold_st; cbn [fst snd Limiter.count].
      * apply bool_decide_eq_true_1 in Hav. rewrite workers_add by done. lia.
      * split; [done|]. split; [done|]. intros Hin.
        specialize (L4 (next_fut fs)). simpl in Hin. set_solver by lia.
    + destruct H6 as [<- Hlt]. rewrite Hlim in Hstep.
      break_step Hstep; unfold_st; rewrite ?Hlim; cbn [fst snd Limiter.count]; [done|].
      apply bool_decide_eq_true_1 in Heqb. rewrite workers_add by done.
      specialize (B3 Heqb). lia.
    + break_step Hstep; unfold_st; rewrite ?Hlim, ?workers_without_gen; done.
    + break_step Hstep; unfold_st; rewrite ?Hlim, ?workers_without_gen; done.
  - unfold step_finish in Hstep. rewrite slot_release_first in Hstep.
    break_step Hstep. bool_hyps. unfold_st. rewrite Hlim.
    rewrite (release_count (l, fs)), workers_remove by done. cbn [fst].
    split; [lia|]. split; [lia|]. destruct (gen st); try done. intros _. lia.
  - unfold step_abort in Hstep. break_step Hstep. bool_hyps. unfold_st. rewrite Hlim.
    rewrite workers_remove by done. cbn [fst snd]. split; [lia|]. done.
  - unfold step_main, __anext__ in Hstep. rewrite ?finish_tasks_eq in Hstep.
    destruct (main st) as [|s|exc s|lr|r] eqn:Hm; try done.
    + destruct (items (collector st)) as [|[i v] rest] eqn:Hit.
      * destruct (finished (collector st)) as [[e|]|] eqn:Hfin; [| |done].
        all: break_step Hstep; unfold_st; rewrite ?Hlim; done.
      * break_step Hstep; unfold_st; rewrite ?Hlim; done.
    + break_step Hstep; unfold_st; rewrite ?Hlim; done.
    + break_step Hstep; unfold_st; rewrite ?Hlim; done.
Qed.

Lemma within_limit_exec (k : Z) (evs : list (event U)) (st st' : state U) :
  inv func xs (Some k) st → within_limit k st → exec st evs = Some st' → within_limit k st'.
Proof.
  revert st. induction evs as [|ev evs IH]; intros st Hinv Hb Hex; simpl in Hex.
  - by inversion Hex; subst.
  - destruct (step st ev) as [st1|] eqn:Hst; [|done].
    eapply IH; [|  |exact Hex].
    + by eapply pmap_inv_step.
    + destruct Hinv. by eapply within_limit_step.
Qed.

End PmapMore.

(** X12.  With [limit=k], [k >= 0], at every moment of a call of [pmap]
    the worker tasks that are not done number at most [k]: each of them
    holds a slot of the limiter of [generate], whose count never exceeds
    [k]. *)
Theorem pmap_runs_at_most_limit_workers {X U : Type} `{!EqDecision U}
    (func : X → outcome U) (xs : list X) (k : Z)
    (evs : list (Pmap.event U)) (st : Pmap.state U) :
  0 ≤ k →
  Pmap.exec func xs (Pmap.init (Some k)) evs = Some st →
  Z.of_nat (size (active_workers st)) ≤ Limiter.count (Pmap.lim st).1
  ∧ Limiter.count (Pmap.lim st).1 ≤ k.
Proof.
  intros Hk Hex.
  assert (Hinit : within_limit k (Pmap.init (U := U) (Some k))).
  { unfold within_limit, active_workers, Pmap.init.
    cbn [Pmap.active_tasks Pmap.lim Pmap.gen fst snd].
    replace (({[Pmap.main_id; Pmap.gen_id]} : gset nat) ∖ {[Pmap.main_id; Pmap.gen_id]})
      with (∅ : gset nat) by set_solver.
    rewrite size_empty. simpl. split; [lia|]. split; [lia|done]. }
  by destruct (within_limit_exec func xs k evs _ _ (pmap_inv_init func xs (Some k)) Hinit Hex)
    as (B1 & B2 & _).
Qed.

Lemma pmap_runs_at_most_limit_workers_witness :
  ∃ st, Pmap.exec (fun x : Z => Value (2 * x)) [0; 1; 2] (Pmap.init (Some 2))
          [Pmap.Gen; Pmap.Gen; Pmap.Gen; Pmap.Finish 1 (Value 2); Pmap.Gen] = Some st
    ∧ active_workers st = {[Pmap.worker 0; Pmap.worker 2]}
    ∧ (Z.of_nat (size (active_workers st)) ≤ Limiter.count (Pmap.lim st).1
       ∧ Limiter.count (Pmap.lim st).1 ≤ 2).
Proof.
  eexists. split; [vm_compute; reflexivity|]. split; [vm_compute; reflexivity|].
  apply (pmap_runs_at_most_limit_workers (fun x : Z => Value (2 * x)) [0; 1; 2] 2
           [Pmap.Gen; Pmap.Gen; Pmap.Gen; Pmap.Finish 1 (Value 2); Pmap.Gen]).
  - lia.
  - vm_compute. reflexivity.
Defined.

Section PmapFirstError.

Import Pmap.

Context {X U : Type} `{!EqDecision U}.
Variable func : X → outcome U.
Variable xs : list X.
Variable limit : option Z.

Local Abbreviation step := (step func xs).
Local Abbreviation exec := (exec func xs).
Local Abbreviation inv := (inv func xs limit).

Lemma error_settled_step (fe : option exn) (st st' : state U) (ev : event U) :
  inv st → error_settled fe st → step st ev = Some st' →
  error_settled (first_error_from fe [ev]) st'.
Proof.
  intros [Ht Hl He Hd] Hs Hstep.
  pose proof Ht as [H1 H2 H3 H4 H5 H6 H7 H8].
  pose proof He as [E1 E2 E3 E4].
  assert (Hmain : gen st ≠ GDone → main st = MConsume).
  { intros Hne. destruct (gen st); destruct_and?; done. }
  destruct ev as [|j o|j|]; cbn [Pmap.step] in Hstep.
  - (* generate *)
    assert (Hfe : first_error_from fe [Gen (U := U)] = fe) by (by destruct fe).
    rewrite Hfe. clear Hfe.
    unfold step_gen, gen_deliverable in Hstep. rewrite ?finish_tasks_eq in Hstep.
    destruct (gen st) as [i|i f|s|exc s|] eqn:Hg; try done.
    all: rewrite Hmain in * by done.
    + (* the head of the loop *)
      destruct fe as [e|]; unfold error_settled, normal in *; rewrite ?Hg in Hs;
        break_step Hstep; unfold_st; rewrite ?Hmain by done; by destruct Hs.
    + (* suspended in acquire *)
      destruct fe as [e|]; unfold error_settled, normal in *; rewrite ?Hg in Hs.
      * destruct Hs as [[Hi [t Hp]] _]. rewrite Hi, Hp in Hstep.
        inversion Hstep; subst; clear Hstep. unfold_st. by rewrite ?Hmain.
      * destruct Hs as [[Hi Hp] _]. rewrite Hi, Hp in Hstep.
        break_step Hstep; unfold_st; rewrite ?Hmain by done; done.
    + (* first finish_tasks *)
      destruct fe as [e|]; unfold error_settled, normal in *; rewrite ?Hg in Hs.
      * destruct Hs as [[Hi [t Hp]] _]. rewrite Hi, Hp in Hstep.
        inversion Hstep; subst; clear Hstep. unfold_st. by rewrite ?Hmain.
      * destruct Hs as [[Hi Hp] _]. rewrite Hi, Hp in Hstep.
        break_step Hstep; unfold_st; rewrite ?Hmain by done; done.
    + (* second finish_tasks *)
      destruct E3 as [E3 _].
      destruct fe as [e|]; unfold error_settled, normal in *; rewrite ?Hg in Hs.
      * destruct Hs as [Hs _].
        break_step Hstep; unfold_st; rewrite ?Hmain, ?exc_value_reraise by done; done.
      * destruct Hs as [[Hi _] _]. congruence.
  - (* a call of func ends *)
    unfold step_finish in Hstep. rewrite slot_release_first in Hstep.
    break_step Hstep. bool_hyps.
    assert (Hin : worker j ∈ gen_tasks st) by (by apply H4).
    assert (Hne : gen st ≠ GDone).
    { intros Hg. rewrite Hg in H6. rewrite H6 in Hin. set_solver. }
    rewrite Hmain in * by done.
    destruct fe as [e|]; unfold error_settled, normal in *; simpl.
    + destruct Hs as [Hs1 _]. unfold_st. rewrite ?Hmain by done. split; [|done].
      destruct (gen st) as [i|i f|s|exc s|] eqn:Hg; try done.
      all: destruct Hs1 as [Hi [t Hp]]; split; [done|]; rewrite Hp; destruct o; simpl; eauto.
    + destruct Hs as [[Hi Hp] _]. destruct o as [v|e]; unfold_st; rewrite ?Hmain by done.
      * done.
      * rewrite Hp. simpl. split; [|done].
        destruct (gen st) as [i|i f|s|exc s|] eqn:Hg; try done; eauto.
        destruct E3 as [E3 _]. congruence.
  - (* a worker ends before it starts *)
    assert (Hfe : first_error_from fe [Abort (U := U) j] = fe) by (by destruct fe).
    rewrite Hfe. clear Hfe.
    unfold step_abort in Hstep. break_step Hstep. bool_hyps.
    assert (Hin : worker j ∈ gen_tasks st) by (by apply H4).
    assert (Hne : gen st ≠ GDone).
    { intros Hg. rewrite Hg in H6. rewrite H6 in Hin. set_solver. }
    assert (Hni : gen_interruptible st = false).
    { destruct (gen_interruptible st) eqn:Hi; [|done].
      by rewrite (not_interrupted st j (E1 eq_refl)) in *. }
    rewrite Hmain in * by done.
    destruct fe as [e|]; unfold error_settled, normal in *.
    + destruct Hs as [Hs1 _]. unfold_st. rewrite ?Hmain by done. split; [|done].
      destruct (gen st) as [i|i f|s|exc s|] eqn:Hg; try done.
      all: destruct Hs1 as [Hi _]; congruence.
    + destruct Hs as [[Hi _] _]. congruence.
  - (* the consumer *)
    assert (Hfe : first_error_from fe [Main (U := U)] = fe) by (by destruct fe).
    rewrite Hfe. clear Hfe.
    unfold step_main, __anext__ in Hstep. rewrite ?finish_tasks_eq in Hstep.
    destruct (main st) as [|s|exc s|lr|r] eqn:Hm; try done.
    + destruct (items (collector st)) as [|[i v] rest] eqn:Hit.
      * destruct (finished (collector st)) as [[e'|]|] eqn:Hfin; [| |done].
        all: assert (Hg : gen st = GDone) by (destruct (gen st); destruct_and?; congruence).
        all: rewrite Hg in E3.
        -- (* the collector raises *)
           destruct E3 as [(? & _)|(e'' & He'' & Hr & Hi)]; [congruence|].
           break_step Hstep.
           destruct fe as [e|]; unfold error_settled, normal in *; rewrite ?Hg, ?Hm in Hs.
           ++ destruct Hs as [Hs1 _]. unfold_st. rewrite Hg. split; [done|]. congruence.
           ++ destruct Hs as [[Hi' _] _]. congruence.
        -- (* the collector is exhausted *)
           destruct E3 as [(_ & Hi & Hp & Hsp)|(e' & He' & _)]; [|congruence].
           destruct (all_yielded func xs st Ht (Hd (conj Hi Hp)) Hg Hsp Hit) as [Hb _].
           rewrite Hb, drain_empty in Hstep. break_step Hstep.
           destruct fe as [e|]; unfold error_settled, normal in *; rewrite ?Hg, ?Hm in Hs.
           ++ destruct Hs as [Hs1 _]. congruence.
           ++ unfold_st. done.
      * break_step Hstep.
        destruct fe as [e|]; unfold error_settled, normal in *; rewrite ?Hm in Hs;
          unfold_st; done.
    + break_step Hstep.
      destruct fe as [e|]; unfold error_settled, normal in *; rewrite ?Hm in Hs;
        unfold_st; destruct_and?; try done.
      all: by case_bool_decide.
    + break_step Hstep.
      destruct fe as [e|]; unfold error_settled, normal in *; rewrite ?Hm in Hs;
        unfold_st; destruct_and?; try done.
      split; [done|]. case_bool_decide; [|done]. subst exc. done.
Qed.

Lemma first_error_from_cons (fe : option exn) (ev : event U) (evs : list (event U)) :
  first_error_from (first_error_from fe [ev]) evs = first_error_from fe (ev :: evs).
Proof.
  destruct fe as [e|]; [done|]. simpl.
  destruct ev as [|j [v|e]|j|]; done.
Qed.

Lemma error_settled_exec (evs : list (event U)) (fe : option exn) (st st' : state U) :
  inv st → error_settled fe st → exec st evs = Some st' →
  error_settled (first_error_from fe evs) st'.
Proof.
  revert fe st. induction evs as [|ev evs IH]; intros fe st Hinv Hs Hex; simpl in Hex.
  - inversion Hex; subst. by destruct fe.
  - destruct (step st ev) as [st1|] eqn:Hst; [|done].
    rewrite <- first_error_from_cons. eapply IH; [| |exact Hex].
    + by eapply pmap_inv_step.
    + by eapply error_settled_step.
Qed.

Lemma error_settled_reachable (evs : list (event U)) (st : state U) :
  exec (init limit) evs = Some st → error_settled (first_error evs) st.
Proof.
  intros Hex.
  apply (error_settled_exec evs None _ _ (pmap_inv_init func xs limit)); [|done].
  done.
Qed.

End PmapFirstError.

(** X13.  [pmap] raises the error of the first call of [func] that
    failed, in the order in which the calls ended, and it returns a list
    only if no call failed. *)
Theorem pmap_raises_first_error {X U : Type} `{!EqDecision U}
    (func : X → outcome U) (xs : list X) (limit : option Z)
    (evs : list (Pmap.event U)) (st : Pmap.state U) :
  Pmap.exec func xs (Pmap.init limit) evs = Some st →
  (∀ r, Pmap.main st = Pmap.MRaised r → first_error evs = Some (Scope.exc_value r))
  ∧ (∀ l, Pmap.main st = Pmap.MReturned l → first_error evs = None).
Proof.
  intros Hex. pose proof (error_settled_reachable func xs limit evs st Hex) as Hs.
  unfold error_settled in Hs. split.
  - intros r Hm. rewrite Hm in Hs.
    destruct (first_error evs) as [e|]; destruct Hs as [_ Hs]; [by subst|done].
  - intros l Hm. rewrite Hm in Hs.
    destruct (first_error evs) as [e|]; destruct Hs as [_ Hs]; done.
Qed.

Lemma pmap_raises_first_error_witness :
  ∃ st r,
    Pmap.exec (fun x : Z => Error (V := Z) (ValueError (if bool_decide (x = 0) then "0" else "1")))
      [0; 1] (Pmap.init None)
      [Pmap.Gen; Pmap.Gen; Pmap.Gen; Pmap.Finish 1 (Error (ValueError "1"));
       Pmap.Finish 0 (Error (ValueError "0")); Pmap.Gen; Pmap.Gen;
       Pmap.Main; Pmap.Main] = Some st
    ∧ Pmap.main st = Pmap.MRaised r
    ∧ Scope.exc_value r = ValueError "1"
    ∧ first_error (U := Z)
        [Pmap.Gen; Pmap.Gen; Pmap.Gen; Pmap.Finish 1 (Error (ValueError "1"));
         Pmap.Finish 0 (Error (ValueError "0")); Pmap.Gen; Pmap.Gen;
         Pmap.Main; Pmap.Main] = Some (Scope.exc_value r).
Proof.
  eexists. eexists. split; [vm_compute; reflexivity|]. split; [reflexivity|].
  split; [reflexivity|].
  eapply (pmap_raises_first_error
            (fun x : Z => Error (V := Z) (ValueError (if bool_decide (x = 0) then "0" else "1")))
            [0; 1] None).
  - vm_compute. reflexivity.
  - reflexivity.
Defined.

(** X14.  As long as no call of [func] has failed, what [pmap_aiter] has
    yielded so far is the results of [func] on the first [next_idx]
    items of the input, in input order, whatever the order in which the
    calls ended. *)
Theorem pmap_yields_prefix_in_order {X U : Type} `{!EqDecision U}
    (func : X → outcome U) (xs : list X) (limit : option Z)
    (evs : list (Pmap.event U)) (st : Pmap.state U) :
  Pmap.exec func xs (Pmap.init limit) evs = Some st →
  first_error evs = None →
  Value <$> Pmap.out st = func <$> take (Pmap.next_idx st) xs
  ∧ length (Pmap.out st) = Pmap.next_idx st
  ∧ (Pmap.next_idx st ≤ length xs)%nat.
Proof.
  intros Hex Hfe. pose proof (error_settled_reachable func xs limit evs st Hex) as Hs.
  rewrite Hfe in Hs. destruct Hs as [Hn _].
  pose proof (pmap_exec_inv func xs limit evs _ _ (pmap_inv_init func xs limit) Hex)
    as [[H1 H2 H3 H4 H5 H6 H7 H8] _ _ Hd].
  destruct (Hd Hn) as [D1 D2 D3 D4 D5 D6 D7 D8 D9].
  assert (Hle : (Pmap.next_idx st ≤ length xs)%nat) by lia.
  split; [done|]. split; [|done].
  apply (f_equal length) in D1. rewrite !length_fmap, length_take in D1. lia.
Qed.

Lemma pmap_yields_prefix_in_order_witness :
  ∃ st, Pmap.exec (fun x : Z => Value (2 * x)) [0; 1; 2] (Pmap.init (Some 2))
          [Pmap.Gen; Pmap.Gen; Pmap.Gen; Pmap.Finish 1 (Value 2); Pmap.Main;
           Pmap.Finish 0 (Value 0); Pmap.Main] = Some st
    ∧ Pmap.out st = [0; 2]
    ∧ (Value <$> Pmap.out st = (fun x : Z => Value (2 * x)) <$> take (Pmap.next_idx st) [0; 1; 2]
       ∧ length (Pmap.out st) = Pmap.next_idx st
       ∧ (Pmap.next_idx st ≤ length [0; 1; 2])%nat).
Proof.
  eexists. split; [vm_compute; reflexivity|]. split; [reflexivity|].
  apply (pmap_yields_prefix_in_order (fun x : Z => Value (2 * x)) [0; 1; 2] (Some 2)
           [Pmap.Gen; Pmap.Gen; Pmap.Gen; Pmap.Finish 1 (Value 2); Pmap.Main;
            Pmap.Finish 0 (Value 0); Pmap.Main]).
  - vm_compute. reflexivity.
  - reflexivity.
Defined.

(** X15.  When [pmap] returns, one worker was made for each item of the
    input, every worker is done and has released its slot (the count of
    the limiter is back to 0), and the list has the length of the input. *)
Theorem pmap_return_releases_every_slot {X U : Type} `{!EqDecision U}
    (func : X → outcome U) (xs : list X) (limit : option Z)
    (evs : list (Pmap.event U)) (st : Pmap.state U) (l : list U) :
  Pmap.exec func xs (Pmap.init limit) evs = Some st →
  Pmap.main st = Pmap.MReturned l →
  Pmap.spawned st = length xs
  ∧ Limiter.count (Pmap.lim st).1 = 0
  ∧ Pmap.no_worker_active st
  ∧ length l = length xs.
Proof.
  intros Hex Hm.
  pose proof (pmap_exec_inv func xs limit evs _ _ (pmap_inv_init func xs limit) Hex) as Hinv.
  destruct (final_gen_done func xs limit st Hinv) as [Hg Hnone].
  { unfold Pmap.final. by rewrite Hm. }
  pose proof (returned_values func xs limit st l Hinv Hm) as Hv.
  destruct Hinv as [[H1 H2 H3 H4 H5 H6 H7 H8] [L1 L2 L3 L4 L5] [E1 E2 E3 E4] Hd].
  rewrite Hg in E3, H6. rewrite Hm in E4.
  destruct E3 as [(_ & Hi & _ & Hsp)|(e & He & _)]; [|congruence].
  split; [done|]. split; [|split; [done|]].
  - rewrite (L2 (E1 Hi)), H6, size_empty. done.
  - apply (f_equal length) in Hv. by rewrite !length_fmap in Hv.
Qed.

Lemma pmap_return_releases_every_slot_witness :
  ∃ st, Pmap.exec (fun x : Z => Value (2 * x)) [0; 1; 2] (Pmap.init (Some 2))
          [Pmap.Gen; Pmap.Gen; Pmap.Gen; Pmap.Finish 1 (Value 2); Pmap.Gen; Pmap.Gen;
           Pmap.Finish 2 (Value 4); Pmap.Finish 0 (Value 0); Pmap.Main; Pmap.Main;
           Pmap.Main; Pmap.Gen; Pmap.Main; Pmap.Main] = Some st
    ∧ Pmap.main st = Pmap.MReturned [0; 2; 4]
    ∧ (Pmap.spawned st = length [0; 1; 2]
       ∧ Limiter.count (Pmap.lim st).1 = 0
       ∧ Pmap.no_worker_active st
       ∧ length [0; 2; 4] = length [0; 1; 2]).
Proof.
  eexists. split; [vm_compute; reflexivity|]. split; [reflexivity|].
  apply (pmap_return_releases_every_slot (fun x : Z => Value (2 * x)) [0; 1; 2] (Some 2)
           [Pmap.Gen; Pmap.Gen; Pmap.Gen; Pmap.Finish 1 (Value 2); Pmap.Gen; Pmap.Gen;
            Pmap.Finish 2 (Value 4); Pmap.Finish 0 (Value 0); Pmap.Main; Pmap.Main;
            Pmap.Main; Pmap.Gen; Pmap.Main; Pmap.Main]).
  - vm_compute. reflexivity.
  - reflexivity.
Defined.

Section PmapEdges.

Import Pmap.

Context {X U : Type} `{!EqDecision U}.
Variable func : X → outcome U.
Variable xs : list X.
Variable limit : option Z.

Local Abbreviation step := (step func xs).
Local Abbreviation exec := (exec func xs).
Local Abbreviation inv := (inv func xs limit).

Lemma waits_step (c : Z) (st st' : state U) (ev : event U) :
  limit = Some c → c ≤ 0 → xs ≠ [] →
  inv st → waits_for_first_slot st → step st ev = Some st' →
  waits_for_first_slot st'.
Proof.
  intros -> Hc Hne [Ht [L1 L2 L3 L4 L5] He Hd] (Hm & Hcol & Hp & Hcnt & Hsp & Hnone & Hg) Hstep.
  unfold waits_for_first_slot.
  destruct ev as [|j o|j|]; cbn [Pmap.step] in Hstep.
  - unfold step_gen, gen_deliverable in Hstep.
    destruct Hg as [Hg|(f & Hg & Hf)]; rewrite Hg in Hstep.
    + destruct xs as [|x xs'] eqn:Hxs; [done|]. simpl in Hstep.
      destruct (lim st) as [l fs] eqn:Hlim. cbn [fst snd] in *.
      unfold Limiter.__aenter__, Limiter.is_available in Hstep. rewrite L1 in Hstep.
      rewrite bool_decide_eq_false_2 in Hstep by lia. simpl in Hstep.
      inversion Hstep; subst st'; clear Hstep. unfold_st. cbn [fst snd Limiter.count].
      repeat (split; [done|]). right. exists (next_fut fs). split; [done|].
      intros Hin. specialize (L4 (next_fut fs)). set_solver by lia.
    + rewrite Hp in Hstep. unfold is_set in Hstep.
      rewrite bool_decide_eq_false_2 in Hstep by done.
      by destruct (gen_interruptible st).
  - unfold step_finish in Hstep.
    rewrite (bool_decide_eq_false_2 (worker j ∈ active_tasks st)) in Hstep by apply Hnone.
    done.
  - unfold step_abort in Hstep.
    rewrite (bool_decide_eq_false_2 (worker j ∈ active_tasks st)) in Hstep by apply Hnone.
    done.
  - unfold step_main in Hstep. rewrite Hm, Hcol in Hstep. done.
Qed.

Lemma waits_exec (c : Z) (evs : list (event U)) (st st' : state U) :
  limit = Some c → c ≤ 0 → xs ≠ [] →
  inv st → waits_for_first_slot st → exec st evs = Some st' →
  waits_for_first_slot st'.
Proof.
  intros Hl Hc Hne. revert st.
  induction evs as [|ev evs IH]; intros st Hinv Hw Hex; simpl in Hex.
  - by inversion Hex; subst.
  - destruct (step st ev) as [st1|] eqn:Hst; [|done].
    eapply IH; [| |exact Hex].
    + by eapply pmap_inv_step.
    + by eapply waits_step.
Qed.

(** Outside [acquire] a call that has neither returned nor raised can go
    on, whatever the limit. *)
Lemma progress_outside_acquire (st : state U) :
  inv st → final st = false → (∀ i f, gen st ≠ GAcquire i f) →
  ∃ ev st', step st ev = Some st'.
Proof.
  intros [Ht Hl He Hd] Hfin Hna.
  pose proof Ht as [H1 H2 H3 H4 H5 H6 H7 H8].
  destruct (decide (gen_tasks st ∩ active_tasks st = ∅)) as [Hemp|Hne].
  - assert (Hnone : no_worker_active st).
    { intros j Hj. pose proof (H4 j Hj). set_solver. }
    destruct (gen st) as [i|i f|s|exc s|] eqn:Hg.
    + exists Gen. cbn [Pmap.step]. unfold step_gen. rewrite Hg.
      destruct (xs !! i); [|by eexists].
      destruct (Limiter.__aenter__ (lim st)) as [[|f] w]; by eexists.
    + by destruct (Hna i f).
    + exists Gen. cbn [Pmap.step]. unfold step_gen. rewrite Hg.
      destruct (gen_deliverable st); [by eexists|].
      rewrite any_ready_no_worker by (done || by destruct H6).
      rewrite finish_tasks_eq. case_bool_decide; by eexists.
    + exists Gen. cbn [Pmap.step]. unfold step_gen. rewrite Hg.
      rewrite any_ready_no_worker by (done || by destruct H6).
      rewrite finish_tasks_eq. case_bool_decide; by eexists.
    + exists Main. cbn [Pmap.step]. unfold step_main, __anext__.
      destruct H7 as (_ & Ho & Hf). unfold final in Hfin.
      destruct (main st) as [|s|exc s|lr|r] eqn:Hm; try done.
      * destruct (items (collector st)) as [|[i v] rest].
        -- destruct (finished (collector st)) as [[e|]|]; [by eexists| |done].
           destruct (drain _ _ _ _); by eexists.
        -- destruct (flush _ _ _ _) as [[b' n'] o']. by eexists.
      * subst s. unfold Scope.any_ready. rewrite bool_decide_eq_true_2 by done.
        simpl. by eexists.
      * subst s. unfold Scope.any_ready. rewrite bool_decide_eq_true_2 by done.
        simpl. by eexists.
  - apply set_choose_L in Hne as [t [Hin Hact]%elem_of_intersection].
    destruct (H3 t Hin) as [(j & Hj & ->) _].
    destruct (lookup_lt_is_Some_2 xs j) as [x Hx]; [lia|].
    exists (Finish j (func x)). cbn [Pmap.step]. unfold step_finish.
    rewrite slot_release_first, Hx. simpl.
    rewrite (bool_decide_eq_true_2 (worker j ∈ active_tasks st)) by done.
    rewrite (bool_decide_eq_true_2 (Some (func x) = Some (func x))) by done.
    rewrite orb_true_r. simpl. by eexists.
Qed.

Lemma reaches_final_empty (st : state U) :
  xs = [] → inv st → ∃ evs st', exec st evs = Some st' ∧ final st' = true.
Proof.
  intros Hxs. remember (steps_left xs st) as n eqn:Hn. revert st Hn.
  induction (lt_wf n) as [n _ IH]. intros st -> Hinv.
  destruct (final st) eqn:Hfin.
  - by exists [], st.
  - destruct (progress_outside_acquire st Hinv Hfin) as (ev & st1 & Hst).
    { intros i f Hg. destruct Hinv as [[H1 H2 H3 H4 H5 H6 H7 H8] _ _ _].
      rewrite Hg, Hxs in H6. simpl in H6. lia. }
    destruct (IH (steps_left xs st1) (steps_left_step func xs limit _ _ _ Hinv Hst) st1 eq_refl
                (pmap_inv_step func xs limit _ _ _ Hinv Hst)) as (evs & st' & Hex & Hf).
    exists (ev :: evs), st'. by rewrite (exec_cons_step func xs _ _ _ _ Hst).
Qed.

End PmapEdges.

(** X16.  With a limit below 1 and an input that is not empty, a call of
    [pmap] neither returns nor raises: [generate] stays in its first
    [limiter.acquire()], no worker is ever made, so [func] is never
    called. *)
Theorem pmap_blocks_below_limit_one {X U : Type} `{!EqDecision U}
    (func : X → outcome U) (xs : list X) (c : Z)
    (evs : list (Pmap.event U)) (st : Pmap.state U) :
  c ≤ 0 → xs ≠ [] →
  Pmap.exec func xs (Pmap.init (Some c)) evs = Some st →
  Pmap.final st = false
  ∧ Pmap.spawned st = 0%nat
  ∧ Pmap.no_worker_active st.
Proof.
  intros Hc Hne Hex.
  assert (Hinit : waits_for_first_slot (Pmap.init (U := U) (Some c))).
  { unfold waits_for_first_slot, Pmap.init.
    cbn [Pmap.main Pmap.collector Pmap.gen_pending Pmap.lim Pmap.spawned Pmap.gen fst].
    repeat (split; [done|]). split; [|by left]. intros i Hin. cbn in Hin.
    pose proof (worker_not_main i). pose proof (worker_not_gen i). set_solver. }
  destruct (waits_exec func xs (Some c) c evs _ _ eq_refl Hc Hne
              (pmap_inv_init func xs (Some c)) Hinit Hex)
    as (Hm & _ & _ & _ & Hsp & Hnone & _).
  unfold Pmap.final. by rewrite Hm.
Qed.

Lemma pmap_blocks_below_limit_one_witness :
  ∃ st, Pmap.exec (fun x : Z => Value (2 * x)) [5; 6] (Pmap.init (Some (-1))) [Pmap.Gen] = Some st
    ∧ Pmap.gen st = Pmap.GAcquire 0 0%nat
    ∧ (Pmap.final st = false ∧ Pmap.spawned st = 0%nat ∧ Pmap.no_worker_active st).
Proof.
  eexists. split; [vm_compute; reflexivity|]. split; [reflexivity|].
  apply (pmap_blocks_below_limit_one (fun x : Z => Value (2 * x)) [5; 6] (-1) [Pmap.Gen]).
  - lia.
  - discriminate.
  - vm_compute. reflexivity.
Defined.

(** X17.  On an empty input [pmap] returns the empty list whatever the
    limit, also with a limit below 1: [generate] never calls [acquire].
    No run raises, every list returned is empty, and from every point
    the call can be brought to return. *)
Theorem pmap_empty_input {X U : Type} `{!EqDecision U}
    (func : X → outcome U) (limit : option Z)
    (evs : list (Pmap.event U)) (st : Pmap.state U) :
  Pmap.exec func [] (Pmap.init limit) evs = Some st →
  (∀ r, Pmap.main st ≠ Pmap.MRaised r)
  ∧ (∀ l, Pmap.main st = Pmap.MReturned l → l = [])
  ∧ ∃ evs' st', Pmap.exec func [] st evs' = Some st' ∧ Pmap.main st' = Pmap.MReturned [].
Proof.
  intros Hex.
  pose proof (pmap_exec_inv func [] limit evs _ _ (pmap_inv_init func [] limit) Hex) as Hinv.
  assert (Hnr : ∀ st0 r, Pmap.inv func [] limit st0 → Pmap.main st0 ≠ Pmap.MRaised r).
  { intros st0 r Hi Hm.
    by destruct (raised_error func [] limit st0 r Hi Hm) as (i & x & Hx & _). }
  assert (Hret : ∀ st0 l, Pmap.inv func [] limit st0 → Pmap.main st0 = Pmap.MReturned l → l = []).
  { intros st0 l Hi Hm. pose proof (returned_values func [] limit st0 l Hi Hm) as Hv.
    by destruct l. }
  split; [intros r; by apply Hnr|]. split; [intros l; by apply Hret|].
  destruct (reaches_final_empty func [] limit st eq_refl Hinv) as (evs' & st' & Hex' & Hfin).
  pose proof (pmap_exec_inv func [] limit evs' _ _ Hinv Hex') as Hinv'.
  exists evs', st'. split; [done|]. unfold Pmap.final in Hfin.
  destruct (Pmap.main st') as [|s|exc s|l|r] eqn:Hm; try done.
  - by rewrite (Hret st' l Hinv' Hm).
  - by destruct (Hnr st' r Hinv').
Qed.

Lemma pmap_empty_input_witness :
  ∃ st, Pmap.exec (fun x : Z => Value (2 * x)) [] (Pmap.init (Some 0))
          [Pmap.Gen; Pmap.Gen; Pmap.Main; Pmap.Main] = Some st
    ∧ Pmap.main st = Pmap.MReturned []
    ∧ (∀ r, Pmap.main st ≠ Pmap.MRaised r)
    ∧ (∀ l, Pmap.main st = Pmap.MReturned l → l = [])
    ∧ ∃ evs' st', Pmap.exec (fun x : Z => Value (2 * x)) [] st evs' = Some st'
                  ∧ Pmap.main st' = Pmap.MReturned [].
Proof.
  eexists. split; [vm_compute; reflexivity|]. split; [reflexivity|].
  apply (pmap_empty_input (fun x : Z => Value (2 * x)) (Some 0)
           [Pmap.Gen; Pmap.Gen; Pmap.Main; Pmap.Main]).
  vm_compute. reflexivity.
Defined.

(** X18.  The last loop of [pmap_aiter] ([while buffer: yield
    buffer.pop(next_idx)]) finds the buffer empty: when the consumer has
    taken everything from a collector that ended without an error, every
    result has been yielded already, so that loop yields nothing and its
    [buffer.pop] never raises [KeyError]. *)
Theorem pmap_final_drain_finds_empty_buffer {X U : Type} `{!EqDecision U}
    (func : X → outcome U) (xs : list X) (limit : option Z)
    (evs : list (Pmap.event U)) (st : Pmap.state U) :
  Pmap.exec func xs (Pmap.init limit) evs = Some st →
  Pmap.main st = Pmap.MConsume →
  Pmap.__anext__ (Pmap.collector st) = Some (Pmap.StopAsyncIteration, Pmap.collector st) →
  Pmap.buffer st = ∅
  ∧ Pmap.next_idx st = length xs
  ∧ Pmap.drain (size (Pmap.buffer st)) (Pmap.buffer st) (Pmap.next_idx st) (Pmap.out st)
    = inr (Pmap.out st)
  ∧ Value <$> Pmap.out st = func <$> xs.
Proof.
  intros Hex Hm Hnext.
  pose proof (pmap_exec_inv func xs limit evs _ _ (pmap_inv_init func xs limit) Hex)
    as [Ht Hl He Hd].
  unfold Pmap.__anext__ in Hnext.
  destruct (Pmap.items (Pmap.collector st)) as [|[i v] rest] eqn:Hit; [|done].
  destruct (Pmap.finished (Pmap.collector st)) as [[e|]|] eqn:Hfin; try done.
  pose proof Ht as [H1 H2 H3 H4 H5 H6 H7 H8]. pose proof He as [E1 E2 E3 E4].
  assert (Hg : Pmap.gen st = Pmap.GDone).
  { destruct (Pmap.gen st); destruct_and?; congruence. }
  rewrite Hg in E3. destruct E3 as [(_ & Hi & Hp & Hsp)|(e' & He' & _)]; [|congruence].
  destruct (all_yielded func xs st Ht (Hd (conj Hi Hp)) Hg Hsp Hit) as [Hb Hle].
  destruct (Hd (conj Hi Hp)) as [D1 D2 D3 D4 D5 D6 D7 D8 D9].
  split; [done|]. split; [lia|]. split; [by rewrite Hb, drain_empty|].
  by rewrite D1, take_ge.
Qed.

Lemma pmap_final_drain_finds_empty_buffer_witness :
  ∃ st, Pmap.exec (fun x : Z => Value (2 * x)) [0; 1] (Pmap.init None)
          [Pmap.Gen; Pmap.Gen; Pmap.Gen; Pmap.Finish 1 (Value 2); Pmap.Finish 0 (Value 0);
           Pmap.Gen; Pmap.Main; Pmap.Main] = Some st
    ∧ Pmap.out st = [0; 2]
    ∧ (Pmap.buffer st = ∅
       ∧ Pmap.next_idx st = length [0; 1]
       ∧ Pmap.drain (size (Pmap.buffer st)) (Pmap.buffer st) (Pmap.next_idx st) (Pmap.out st)
         = inr (Pmap.out st)
       ∧ Value <$> Pmap.out st = (fun x : Z => Value (2 * x)) <$> [0; 1]).
Proof.
  eexists. split; [vm_compute; reflexivity|]. split; [reflexivity|].
  apply (pmap_final_drain_finds_empty_buffer (fun x : Z => Value (2 * x)) [0; 1] None
           [Pmap.Gen; Pmap.Gen; Pmap.Gen; Pmap.Finish 1 (Value 2); Pmap.Finish 0 (Value 0);
            Pmap.Gen; Pmap.Main; Pmap.Main]).
  - vm_compute. reflexivity.
  - reflexivity.
  - reflexivity.
Defined.
